(** * Event recorders of pywr: [pywr/recorders/events.py]

    A shallow embedding of [Event], [EventRecorder] and
    [EventDurationRecorder], followed by the properties of the event
    state machine and of the duration aggregation.

    Conventions of the embedding.
    - Python objects are records; a method is a computation in a small
      state-and-exception monad over the record of [self].  A raised
      exception keeps the state reached so far, as in Python.
    - [self.model.scenarios.combinations] and
      [self.model.timestepper.current] are the two fields of [Model].
    - A threshold object is given by its kind (the [isinstance] tests of
      [after]) and by the per-scenario array it returns at the current
      time-step.
    - A finite float is the rational it denotes ([Q]); an instant
      ([pandas.Timestamp]) is its number of nanoseconds ([Z]). *)

From Stdlib Require Import ZArith QArith List Lia.
From stdpp Require Import base tactics option list strings gmap.

Close Scope Q_scope.
Open Scope Z_scope.

(** ** Exceptions and the method monad *)

Inductive exn : Type :=
  | ValueError
  | TypeError
  | IndexError
  | AttributeError
  | KeyError.

Inductive result (A : Type) : Type :=
  | Ok (a : A)
  | Raise (e : exn).
Arguments Ok {A} a.
Arguments Raise {A} e.

Inductive outcome (S A : Type) : Type :=
  | Returns (a : A) (s : S)
  | Raises (e : exn) (s : S).
Arguments Returns {S A} a s.
Arguments Raises {S A} e s.

Definition M (S A : Type) : Type := S -> outcome S A.

Definition ret {S A} (a : A) : M S A := fun s => Returns a s.

Definition bind {S A B} (c : M S A) (k : A -> M S B) : M S B :=
  fun s =>
    match c s with
    | Returns a s' => k a s'
    | Raises e s' => Raises e s'
    end.

Notation "'do' x <~ c ;; k" := (bind c (fun x => k))
  (at level 10, x binder, c at level 99, k at level 200).

Definition rbind {A B} (r : result A) (k : A -> result B) : result B :=
  match r with
  | Ok a => k a
  | Raise e => Raise e
  end.

Notation "'try' x <~ c ;; k" := (rbind c (fun x => k))
  (at level 10, x binder, c at level 99, k at level 200).

Definition raise {S A} (e : exn) : M S A := fun s => Raises e s.

Definition lift {S A} (r : result A) : M S A :=
  match r with
  | Ok a => ret a
  | Raise e => raise e
  end.

Definition gets {S A} (f : S -> A) : M S A := fun s => Returns (f s) s.

Definition modify {S} (f : S -> S) : M S unit := fun s => Returns tt (f s).

(** [for x in l: body x] *)
Fixpoint for_each {S A} (l : list A) (body : A -> M S unit) : M S unit :=
  match l with
  | [] => ret tt
  | x :: l' => do _ <~ body x ;; for_each l' body
  end.

(** [l[i]] on a Python list or a numpy array, for an index [i >= 0]. *)
Definition getitem {A} (l : list A) (i : nat) : result A :=
  match l !! i with
  | Some x => Ok x
  | None => Raise IndexError
  end.

(** [l[i] = x], for an index [i >= 0]. *)
Definition setitem {A} (l : list A) (i : nat) (x : A) : result (list A) :=
  if decide (i < length l)%nat then Ok (<[i := x]> l) else Raise IndexError.

(** ** The model: scenarios and time-steps *)

Record Timestep : Type := {
  index : Z;
  datetime : Z
}.

Record ScenarioIndex : Type := {
  global_id : nat;
  indices : list nat
}.

Record Model : Type := {
  combinations : list ScenarioIndex;
  current : Timestep
}.

(** ** [class Event] *)

Record Event : Type := {
  start : Timestep;
  scenario_index : ScenarioIndex;
  end_ : option Timestep
}.

Definition ns_per_day : Z := 86400 * 1000000000.

(** [timedelta.days]: the days component of a normalised time difference,
    which rounds towards minus infinity. *)
Definition days (td : Z) : Z := td / ns_per_day.

Module Event_.

Definition __init__ (start : Timestep) (scenario_index : ScenarioIndex) : Event :=
  {| start := start; scenario_index := scenario_index; end_ := None |}.

(** [current_event.end = ts] *)
Definition set_end (self : Event) (ts : Timestep) : Event :=
  {| start := start self; scenario_index := scenario_index self; end_ := Some ts |}.

Definition duration (self : Event) : result Z :=
  match end_ self with
  | None => Raise AttributeError
  | Some e => let td := datetime e - datetime (start self) in Ok (days td)
  end.

End Event_.

(** ** Threshold objects *)

Inductive Threshold : Type :=
  | RecorderThreshold (values : list Q)
  | IndexParameterThreshold (get_all_indices : list Z)
  | ParameterThreshold (get_all_values : list Q)
  | OtherThreshold.

(** [np.array(..., dtype=np.int)] on a float: the fractional part is
    discarded (rounding towards zero). *)
Definition as_int (x : Q) : Z := Z.quot (Qnum x) (Z.pos (Qden x)).

(** Truth value of a numpy integer in [if triggered:]. *)
Definition truthy (z : Z) : bool := negb (z =? 0).

(** ** The fragment of pandas used by the recorders

    A table is an ordered list of named columns; a column is a list of
    dynamically typed cells. *)

Inductive Cell : Type :=
  | CInt (z : Z)
  | CFloat (q : Q)
  | CTimestamp (t : Z)
  | CTimedelta (d : Z).

Abbreviation Series := (list Cell).

Abbreviation DataFrame := (list (string * Series)).

Definition df_columns (df : DataFrame) : list string := map fst df.

(** [len(df)]: the number of rows. *)
Definition df_len (df : DataFrame) : nat :=
  match df with
  | [] => 0%nat
  | (_, col) :: _ => length col
  end.

(** [df[name]] *)
Fixpoint df_get (df : DataFrame) (name : string) : result Series :=
  match df with
  | [] => Raise KeyError
  | (n, col) :: df' => if String.eqb n name then Ok col else df_get df' name
  end.

(** [df[name] = col]: an existing column is replaced in place, a new one
    is added last. *)
Fixpoint df_set (df : DataFrame) (name : string) (col : Series) : DataFrame :=
  match df with
  | [] => [(name, col)]
  | (n, c) :: df' =>
      if String.eqb n name then (n, col) :: df' else (n, c) :: df_set df' name col
  end.

(** [df[[name1, name2, ...]]] *)
Fixpoint df_select (df : DataFrame) (names : list string) : result DataFrame :=
  match names with
  | [] => Ok []
  | n :: names' =>
      try col <~ df_get df n ;;
      try rest <~ df_select df names' ;;
      Ok ((n, col) :: rest)
  end.

Definition cell_sub (a b : Cell) : result Cell :=
  match a, b with
  | CTimestamp x, CTimestamp y => Ok (CTimedelta (x - y))
  | CInt x, CInt y => Ok (CInt (x - y))
  | CFloat x, CFloat y => Ok (CFloat (x - y)%Q)
  | CTimedelta x, CTimedelta y => Ok (CTimedelta (x - y))
  | CTimestamp x, CTimedelta y => Ok (CTimestamp (x - y))
  | _, _ => Raise TypeError
  end.

(** [a - b] on two columns of one table. *)
Fixpoint series_sub (a b : Series) : result Series :=
  match a, b with
  | x :: a', y :: b' =>
      try z <~ cell_sub x y ;;
      try rest <~ series_sub a' b' ;;
      Ok (z :: rest)
  | _, _ => Ok []
  end.

(** [col.dt.days] *)
Fixpoint dt_days (col : Series) : result Series :=
  match col with
  | [] => Ok []
  | CTimedelta d :: col' =>
      try rest <~ dt_days col' ;;
      Ok (CInt (days d) :: rest)
  | _ :: _ => Raise AttributeError
  end.

Fixpoint as_ints (col : Series) : result (list Z) :=
  match col with
  | [] => Ok []
  | CInt z :: col' =>
      try rest <~ as_ints col' ;;
      Ok (z :: rest)
  | _ :: _ => Raise TypeError
  end.

(** The reducers a group of integer durations can be aggregated with:
    pandas' names ['sum'], ['mean'], ['max'], ['min'], ['count'], or any
    callable. *)
Inductive AggFunc : Type :=
  | AggSum
  | AggMean
  | AggMax
  | AggMin
  | AggCount
  | AggCallable (f : list Z -> Q).

Definition sum_list (ds : list Z) : Z := fold_right Z.add 0 ds.

Definition agg_apply (f : AggFunc) (ds : list Z) : Q :=
  match f with
  | AggSum => inject_Z (sum_list ds)
  | AggMean => (inject_Z (sum_list ds) / inject_Z (Z.of_nat (length ds)))%Q
  | AggMax => inject_Z (match ds with [] => 0 | d :: ds' => fold_left Z.max ds' d end)
  | AggMin => inject_Z (match ds with [] => 0 | d :: ds' => fold_left Z.min ds' d end)
  | AggCount => inject_Z (Z.of_nat (length ds))
  | AggCallable f => f ds
  end.

(** The sorted distinct keys of a grouping. *)
Fixpoint insert_key (k : Z) (ks : list Z) : list Z :=
  match ks with
  | [] => [k]
  | x :: ks' =>
      if k <? x then k :: x :: ks'
      else if k =? x then x :: ks'
      else x :: insert_key k ks'
  end.

Definition group_keys (ks : list Z) : list Z := fold_right insert_key [] ks.

(** The values of the rows whose key is [k], in row order. *)
Fixpoint group_values (k : Z) (ks vs : list Z) : list Z :=
  match ks, vs with
  | x :: ks', v :: vs' =>
      if x =? k then v :: group_values k ks' vs' else group_values k ks' vs'
  | _, _ => []
  end.

(** [df.groupby(by).agg(func)] for a table of two integer columns [by] and
    [value], as the list of (index, row) pairs that [iterrows] walks: one
    row per distinct key, in key order, holding the reduction of the values
    of that key.  [func = None] is Python's [None], which [agg] rejects. *)
Definition groupby_agg (df : DataFrame) (by_ value : string)
    (func : option AggFunc) : result (list (Z * list (string * Cell))) :=
  try ks <~ df_get df by_ ;;
  try ks <~ as_ints ks ;;
  match func with
  | None => Raise TypeError
  | Some func =>
      try vs <~ df_get df value ;;
      try vs <~ as_ints vs ;;
      Ok (map (fun k => (k, [(value, CFloat (agg_apply func (group_values k ks vs)))]))
              (group_keys ks))
  end.

(** [row[name]] *)
Fixpoint row_get (row : list (string * Cell)) (name : string) : result Cell :=
  match row with
  | [] => Raise KeyError
  | (n, c) :: row' => if String.eqb n name then Ok c else row_get row' name
  end.

(** The float stored by [values[i] = c]. *)
Definition as_float (c : Cell) : result Q :=
  match c with
  | CInt z => Ok (inject_Z z)
  | CFloat q => Ok q
  | _ => Raise TypeError
  end.

(** [a[i] = x] on a numpy array: a negative index counts from the end. *)
Definition np_setitem {A} (a : list A) (i : Z) (x : A) : result (list A) :=
  let n := Z.of_nat (length a) in
  if (0 <=? i) && (i <? n) then Ok (<[Z.to_nat i := x]> a)
  else if (- n <=? i) && (i <? 0) then Ok (<[Z.to_nat (n + i) := x]> a)
  else Raise IndexError.

(** ** [class EventRecorder]

    The record holds the attributes that the recorder owns.  The threshold
    object belongs to the model and changes with it, so [after] receives its
    state at the current time-step as an argument. *)

Module EventRecorder.

Record t : Type := {
  minimum_event_length : Z;
  events : option (list Event);
  _current_events : option (list (option Event))
}.

Definition set_events (evs : list Event) (self : t) : t :=
  {| minimum_event_length := minimum_event_length self;
     events := Some evs;
     _current_events := _current_events self |}.

Definition set_current_events (cur : list (option Event)) (self : t) : t :=
  {| minimum_event_length := minimum_event_length self;
     events := events self;
     _current_events := Some cur |}.

(** [minimum_event_length=1] is the keyword's default. *)
Definition __init__ (minimum_event_length : option Z) : result t :=
  let minimum_event_length := default 1 minimum_event_length in
  if minimum_event_length <? 1 then Raise ValueError
  else Ok {| minimum_event_length := minimum_event_length;
             events := None;
             _current_events := None |}.

Definition setup : M t unit := ret tt.

Definition reset (model : Model) : M t unit :=
  do _ <~ modify (set_events []) ;;
  modify (set_current_events (map (fun _ => None) (combinations model))).

(** The [isinstance] cascade at the head of [after]. *)
Definition all_triggered (threshold : Threshold) : result (list Z) :=
  match threshold with
  | RecorderThreshold values => Ok (map as_int values)
  | IndexParameterThreshold get_all_indices => Ok get_all_indices
  | ParameterThreshold get_all_values => Ok (map as_int get_all_values)
  | OtherThreshold => Raise TypeError
  end.

(** [self._current_events[i]] *)
Definition get_current_event (i : nat) : M t (option Event) :=
  do cur <~ gets _current_events ;;
  match cur with
  | None => raise TypeError
  | Some cur => lift (getitem cur i)
  end.

(** [self._current_events[i] = ev] *)
Definition set_current_event (i : nat) (ev : option Event) : M t unit :=
  do cur <~ gets _current_events ;;
  match cur with
  | None => raise TypeError
  | Some cur => do cur' <~ lift (setitem cur i ev) ;; modify (set_current_events cur')
  end.

(** [self.events.append(ev)] *)
Definition append_event (ev : Event) : M t unit :=
  do evs <~ gets events ;;
  match evs with
  | None => raise AttributeError
  | Some evs => modify (set_events (evs ++ [ev]))
  end.

(** The body of the loop of [after]. *)
Definition after_scenario (ts : Timestep) (all_triggered : list Z)
    (si : ScenarioIndex) : M t unit :=
  do triggered <~ lift (getitem all_triggered (global_id si)) ;;
  do current_event <~ get_current_event (global_id si) ;;
  do current_event <~
    match current_event with
    | Some ev =>
        if truthy triggered then ret (Some ev)
        else
          let ev := Event_.set_end ev ts in
          let current_length := index ts - index (start ev) in
          do mel <~ gets minimum_event_length ;;
          if mel <=? current_length then do _ <~ append_event ev ;; ret None
          else ret None
    | None =>
        if truthy triggered then ret (Some (Event_.__init__ ts si))
        else ret None
    end ;;
  set_current_event (global_id si) current_event.

Definition after (model : Model) (threshold : Threshold) : M t unit :=
  let ts := current model in
  do all_triggered <~ lift (all_triggered threshold) ;;
  for_each (combinations model) (after_scenario ts all_triggered).

(** The body of the loop of [finish]. *)
Definition finish_scenario (ts : Timestep) (si : ScenarioIndex) : M t unit :=
  do current_event <~ get_current_event (global_id si) ;;
  match current_event with
  | Some ev =>
      let ev := Event_.set_end ev ts in
      do _ <~ append_event ev ;;
      set_current_event (global_id si) None
  | None => ret tt
  end.

Definition finish (model : Model) : M t unit :=
  let ts := current model in
  for_each (combinations model) (finish_scenario ts).

(** The filling loop of [to_dataframe]. *)
Fixpoint fill (evs : list Event) : result (Series * Series * Series) :=
  match evs with
  | [] => Ok ([], [], [])
  | evt :: evs' =>
      match end_ evt with
      | None => Raise AttributeError
      | Some e =>
          try rest <~ fill evs' ;;
          let '(scen_id, start_, end') := rest in
          Ok (CInt (Z.of_nat (global_id (scenario_index evt))) :: scen_id,
              CTimestamp (datetime (start evt)) :: start_,
              CTimestamp (datetime e) :: end')
      end
  end.

Definition to_dataframe (self : t) : result DataFrame :=
  match events self with
  | None => Raise TypeError
  | Some evs =>
      if (length evs =? 0)%nat then
        Ok [("scenario_id", []); ("start", []); ("end", [])]
      else
        try cols <~ fill evs ;;
        let '(scen_id, start_, end') := cols in
        Ok [("scenario_id", scen_id); ("start", start_); ("end", end')]
  end.

End EventRecorder.

(** ** [class EventDurationRecorder] *)

Module EventDurationRecorder.

Record t : Type := {
  recorder_agg_func : option AggFunc;
  _values : option (list Q)
}.

Definition set_values (vs : list Q) (self : t) : t :=
  {| recorder_agg_func := recorder_agg_func self; _values := Some vs |}.

(** The keyword arguments that carry a reducer; a key bound to [None]
    is Python's [None]. *)
Definition __init__ (kwargs : gmap string (option AggFunc)) : t :=
  let agg_func :=
    match kwargs !! "recorder_agg_func" with
    | Some v => v
    | None =>
        match kwargs !! "agg_func" with
        | Some v => v
        | None => None
        end
    end in
  {| recorder_agg_func := agg_func; _values := None |}.

(** [np.empty] leaves the contents unspecified: [junk] stands for them. *)
Definition setup (model : Model) (junk : nat -> Q) : M t unit :=
  modify (set_values (map junk (seq 0 (length (combinations model))))).

(** [self._values[...] = 0.0] *)
Definition fill_values (x : Q) : M t unit :=
  do vs <~ gets _values ;;
  match vs with
  | None => raise AttributeError
  | Some vs => modify (set_values (map (fun _ => x) vs))
  end.

(** [self._values[index] = x] *)
Definition set_value (index : Z) (x : Cell) : M t unit :=
  do vs <~ gets _values ;;
  match vs with
  | None => raise AttributeError
  | Some vs =>
      do x <~ lift (as_float x) ;;
      do vs' <~ lift (np_setitem vs index x) ;;
      modify (set_values vs')
  end.

Definition reset : M t unit := fill_values 0%Q.

Definition after : M t unit := ret tt.

Definition values : M t (list Q) :=
  do vs <~ gets _values ;;
  match vs with
  | None => raise AttributeError
  | Some vs => ret vs
  end.

Definition finish (event_recorder : EventRecorder.t) : M t unit :=
  do df <~ lift (EventRecorder.to_dataframe event_recorder) ;;
  do _ <~ fill_values 0%Q ;;
  if (df_len df =? 0)%nat then ret tt
  else
    do e <~ lift (df_get df "end") ;;
    do s <~ lift (df_get df "start") ;;
    do d <~ lift (series_sub e s) ;;
    let df := df_set df "duration" d in
    do d <~ lift (df_get df "duration") ;;
    do d <~ lift (dt_days d) ;;
    let df := df_set df "duration" d in
    do df <~ lift (df_select df ["scenario_id"; "duration"]) ;;
    do func <~ gets recorder_agg_func ;;
    do grouped <~ lift (groupby_agg df "scenario_id" "duration" func) ;;
    for_each grouped
      (fun '(index, row) =>
         do x <~ lift (row_get row "duration") ;;
         set_value index x).

End EventDurationRecorder.

(** ** The driver

    The simulation loop is outside this file of the repository: it calls
    [reset] once, then [after] once per time-step with
    [model.timestepper.current] moved to that time-step, then [finish]. *)

Definition with_current (model : Model) (ts : Timestep) : Model :=
  {| combinations := combinations model; current := ts |}.

Fixpoint afters (model : Model) (steps : list (Timestep * Threshold))
    : M EventRecorder.t unit :=
  match steps with
  | [] => ret tt
  | (ts, threshold) :: steps' =>
      do _ <~ EventRecorder.after (with_current model ts) threshold ;;
      afters model steps'
  end.

Definition run (model : Model) (steps : list (Timestep * Threshold))
    : M EventRecorder.t unit :=
  do _ <~ EventRecorder.reset model ;;
  afters model steps.

(** ** Notions used in the statements *)

(** The scenario combinations carry the ids [0 .. N-1], each once. *)
Definition wf_combinations (model : Model) : Prop :=
  global_id <$> combinations model ≡ₚ seq 0 (length (combinations model)).

(** [reset] has run: both lists exist, with one slot per scenario. *)
Definition ready (model : Model) (self : EventRecorder.t)
    (evs : list Event) (cur : list (option Event)) : Prop :=
  EventRecorder.events self = Some evs ∧
  EventRecorder._current_events self = Some cur ∧
  length cur = length (combinations model).

(** What one pass of the loop of [after] leaves in a slot. *)
Definition slot_after (ts : Timestep) (si : ScenarioIndex)
    (slot : option Event) (triggered : Z) : option Event :=
  match slot with
  | Some ev => if truthy triggered then Some ev else None
  | None => if truthy triggered then Some (Event_.__init__ ts si) else None
  end.

(** The event that one pass of the loop of [after] records, if any. *)
Definition closed_by_after (mel : Z) (ts : Timestep)
    (slot : option Event) (triggered : Z) : option Event :=
  match slot with
  | Some ev =>
      if truthy triggered then None
      else if mel <=? index ts - index (start ev) then Some (Event_.set_end ev ts)
      else None
  | None => None
  end.

Definition slot_at (cur : list (option Event)) (i : nat) : option Event :=
  mjoin (cur !! i).

Definition triggered_at (trig : list Z) (i : nat) : Z := default 0 (trig !! i).

(** The events that a whole call of [after] records, in loop order. *)
Definition closed_in_after (mel : Z) (ts : Timestep) (cur : list (option Event))
    (trig : list Z) (l : list ScenarioIndex) : list Event :=
  omap (λ si, closed_by_after mel ts (slot_at cur (global_id si))
                (triggered_at trig (global_id si))) l.

(** The events that a call of [finish] records, in loop order. *)
Definition closed_in_finish (ts : Timestep) (cur : list (option Event))
    (l : list ScenarioIndex) : list Event :=
  omap (λ si, (λ ev, Event_.set_end ev ts) <$> slot_at cur (global_id si)) l.

(** Invariant of a recorder: every recorded event is [Good], every open
    event is [Open], and the minimum length is the one it was built with. *)
Definition inv (mel : Z) (Good Open : Event → Prop) (self : EventRecorder.t) : Prop :=
  EventRecorder.minimum_event_length self = mel ∧
  (∀ evs, EventRecorder.events self = Some evs → Forall Good evs) ∧
  (∀ cur, EventRecorder._current_events self = Some cur →
          Forall (λ slot, ∀ ev, slot = Some ev → Open ev) cur).

(** The time-steps come in non-decreasing order of [key] (their index, or
    their instant). *)
Fixpoint ascending_from (key : Timestep → Z) (prev : Timestep)
    (tss : list Timestep) : Prop :=
  match tss with
  | [] => True
  | ts :: tss' => key prev ≤ key ts ∧ ascending_from key ts tss'
  end.

Definition ascending (key : Timestep → Z) (tss : list Timestep) : Prop :=
  match tss with
  | [] => True
  | ts :: tss' => ascending_from key ts tss'
  end.

(** The event has an end, and its start is not after it. *)
Definition ends_after_start (key : Timestep → Z) (e : Event) : Prop :=
  ∃ t, end_ e = Some t ∧ key (start e) ≤ key t.

(** The event has an end, and its span in time-steps is at least [mel]. *)
Definition spans (mel : Z) (e : Event) : Prop :=
  ∃ t, end_ e = Some t ∧ mel ≤ index t - index (start e).

Definition last_timestep (prev : Timestep) (steps : list (Timestep * Threshold))
    : Timestep :=
  default prev (last (map fst steps)).

(** The events of scenario [i], in the order of the list. *)
Definition scenario_events (i : nat) (evs : list Event) : list Event :=
  filter (λ e, global_id (scenario_index e) = i) evs.

(** The instant of the end of an event whose end is assigned. *)
Definition end_instant (e : Event) : Z := from_option datetime 0 (end_ e).

(** The duration that [finish] computes for an event whose end is
    assigned. *)
Definition event_days (e : Event) : Z := days (end_instant e - datetime (start e)).

(** The duration in the words of the specification: the whole number of
    days between the end and the start instants, the fraction cut off. *)
Definition whole_days_truncated (e : Event) : Z :=
  Z.quot (end_instant e - datetime (start e)) ns_per_day.

(** The value [finish] leaves for a scenario whose durations are [ds]. *)
Definition aggregated (r : AggFunc) (ds : list Z) : Q :=
  match ds with
  | [] => 0%Q
  | _ :: _ => agg_apply r ds
  end.

(** ** Concrete scenarios, time-steps and recorders for the examples *)

Definition scenario0 : ScenarioIndex := {| global_id := 0; indices := [0%nat] |}.

Definition scenario1 : ScenarioIndex := {| global_id := 1; indices := [1%nat] |}.

(** Daily time-steps: the one of index [i] is at midnight of day [i]. *)
Definition day (i : Z) : Timestep := {| index := i; datetime := i * ns_per_day |}.

Definition model1 (ts : Timestep) : Model :=
  {| combinations := [scenario0]; current := ts |}.

Definition model2 (ts : Timestep) : Model :=
  {| combinations := [scenario0; scenario1]; current := ts |}.

Definition opened (ts : Timestep) (si : ScenarioIndex) : Event := Event_.__init__ ts si.

Definition recorded (s e : Timestep) (si : ScenarioIndex) : Event :=
  Event_.set_end (Event_.__init__ s si) e.

(** One integer indicator array per day, from day 0 on. *)
Definition daily (indicators : list (list Z)) : list (Timestep * Threshold) :=
  imap (λ i a, (day (Z.of_nat i), IndexParameterThreshold a)) indicators.

(** Scenario 0 has had an event open since day 1; minimum length 2. *)
Definition recorder_open : EventRecorder.t :=
  EventRecorder.Build_t 2 (Some []) (Some [Some (opened (day 1) scenario0)]).

(** Two scenarios, the second with an event open since day 1. *)
Definition recorder_two : EventRecorder.t :=
  EventRecorder.Build_t 1 (Some []) (Some [None; Some (opened (day 1) scenario1)]).

(** One recorded event of scenario 0, from day 1 to day 4. *)
Definition recorder_done : EventRecorder.t :=
  EventRecorder.Build_t 1 (Some [recorded (day 1) (day 4) scenario0])
    (Some [None; None]).

(** ** Notions for the properties of whole runs *)

(** Entry [i] of the integer array that [after] reads from a threshold. *)
Definition indicator (threshold : Threshold) (i : nat) : Z :=
  match EventRecorder.all_triggered threshold with
  | Ok trig => triggered_at trig i
  | Raise _ => 0
  end.

(** One scenario followed on its own: its slot and the events recorded for
    it, after one more time-step. *)
Definition track_step (mel : Z) (si : ScenarioIndex)
    (st : option Event * list Event) (step : Timestep * Threshold)
    : option Event * list Event :=
  let x := indicator (snd step) (global_id si) in
  (slot_after (fst step) si (fst st) x,
   snd st ++ option_list (closed_by_after mel (fst step) (fst st) x)).

Definition track (mel : Z) (si : ScenarioIndex)
    (steps : list (Timestep * Threshold)) : option Event * list Event :=
  fold_left (track_step mel si) steps (None, []).

(** Time-step number [k] of the run is [ts]. *)
Definition timestep_at (steps : list (Timestep * Threshold)) (k : nat)
    (ts : Timestep) : Prop :=
  ∃ threshold, steps !! k = Some (ts, threshold).

(** At time-step number [k] the indicator of scenario [si] is non-zero. *)
Definition active_at (si : ScenarioIndex) (steps : list (Timestep * Threshold))
    (k : nat) : Prop :=
  ∃ step, steps !! k = Some step ∧ indicator (snd step) (global_id si) ≠ 0.

(** At time-step number [k] the indicator of scenario [si] is zero. *)
Definition idle_at (si : ScenarioIndex) (steps : list (Timestep * Threshold))
    (k : nat) : Prop :=
  ∃ step, steps !! k = Some step ∧ indicator (snd step) (global_id si) = 0.

(** The time-steps number [a] to [b - 1] are active for scenario [si], and
    the activity begins at [a]: it is the first time-step of the run, or the
    time-step before it is idle. *)
Definition run_from (si : ScenarioIndex) (steps : list (Timestep * Threshold))
    (a b : nat) : Prop :=
  (a < b)%nat ∧
  (∀ k, (a ≤ k < b)%nat → active_at si steps k) ∧
  (a = 0%nat ∨ idle_at si steps (a - 1)).

(** Every open event sits in the slot of its own scenario. *)
Definition slots_owned (cur : list (option Event)) : Prop :=
  ∀ j ev, cur !! j = Some (Some ev) → global_id (scenario_index ev) = j.

(** Every recorded event has an end and belongs to one of [n] scenarios. *)
Definition events_owned (n : nat) (evs : list Event) : Prop :=
  Forall (λ e, (global_id (scenario_index e) < n)%nat ∧ is_Some (end_ e)) evs.


(** The model restricted to some of its scenarios. *)
Definition with_combinations (model : Model) (l : list ScenarioIndex) : Model :=
  {| combinations := l; current := current model |}.

(** A recorder that has been constructed with minimum length 2 only. *)
Definition recorder_fresh : EventRecorder.t := EventRecorder.Build_t 2 None None.

(** Five days of one scenario: idle, three active days, idle. *)
Definition steps_one_event : list (Timestep * Threshold) :=
  daily [[0]; [1]; [1]; [1]; [0]].

(** Three active days of one scenario. *)
Definition steps_steady : list (Timestep * Threshold) :=
  [(day 0, IndexParameterThreshold [1]); (day 1, IndexParameterThreshold [1]);
   (day 2, IndexParameterThreshold [1])].

(** Two idle days of one scenario. *)
Definition steps_quiet : list (Timestep * Threshold) := daily [[0]; [0]].

(** Noon of day 0. *)
Definition noon0 : Timestep := {| index := 0; datetime := 43200000000000 |}.

(** * Properties *)

(** ** The scenarios of the specification

    One scenario, [minimum_event_length = 2], daily time-steps. *)

Example indicators_0111000 :
  run (model1 (day 0)) (daily [[0]; [1]; [1]; [1]; [0]; [0]; [0]])
    (EventRecorder.Build_t 2 None None)
  = Returns tt
      (EventRecorder.Build_t 2 (Some [recorded (day 1) (day 4) scenario0])
         (Some [None])) ∧
  Event_.duration (recorded (day 1) (day 4) scenario0) = Ok 3.
Proof. split; reflexivity. Qed.

Example indicators_0100000 :
  run (model1 (day 0)) (daily [[0]; [1]; [0]; [0]; [0]; [0]; [0]])
    (EventRecorder.Build_t 2 None None)
  = Returns tt (EventRecorder.Build_t 2 (Some []) (Some [None])).
Proof. reflexivity. Qed.

Example indicators_000111_then_finish :
  (do _ <~ run (model1 (day 0)) (daily [[0]; [0]; [0]; [1]; [1]; [1]]) ;;
   EventRecorder.finish (model1 (day 5)))
    (EventRecorder.Build_t 2 None None)
  = Returns tt
      (EventRecorder.Build_t 2 (Some [recorded (day 3) (day 5) scenario0])
         (Some [None])).
Proof. reflexivity. Qed.

Example two_scenarios_one_event :
  EventDurationRecorder.finish
    (EventRecorder.Build_t 1 (Some [recorded (day 2) (day 6) scenario0])
       (Some [None; None]))
    (EventDurationRecorder.Build_t (Some AggSum) (Some [0%Q; 0%Q]))
  = Returns tt (EventDurationRecorder.Build_t (Some AggSum) (Some [4%Q; 0%Q])).
Proof. reflexivity. Qed.

(** ** Construction *)

(** C7. Constructing the recorder with [minimum_event_length < 1] raises
    (a [ValueError]) and leaves no recorder behind; with
    [minimum_event_length >= 1] it succeeds and stores the length.  The
    default is 1, so construction without the keyword succeeds. *)
Theorem init_validates_minimum_event_length (mel : Z) :
  (EventRecorder.__init__ (Some mel) = Raise ValueError ↔ mel < 1) ∧
  ((∃ self, EventRecorder.__init__ (Some mel) = Ok self ∧
            EventRecorder.minimum_event_length self = mel) ↔ 1 ≤ mel) ∧
  (∃ self, EventRecorder.__init__ None = Ok self ∧
           EventRecorder.minimum_event_length self = 1).
Proof.
  unfold EventRecorder.__init__; simpl.
  destruct (Z.ltb_spec mel 1) as [Hlt | Hge].
  - split; [tauto |]. split; [| eauto].
    split; [intros (self & Heq & _); discriminate | lia].
  - split; [split; [discriminate | lia] |].
    split; [| eauto]. split; [lia | eauto].
Qed.

Lemma init_validates_witness :
  (EventRecorder.__init__ (Some 0) = Raise ValueError ↔ 0 < 1) ∧
  ((∃ self, EventRecorder.__init__ (Some 0) = Ok self ∧
            EventRecorder.minimum_event_length self = 0) ↔ 1 ≤ 0) ∧
  (∃ self, EventRecorder.__init__ None = Ok self ∧
           EventRecorder.minimum_event_length self = 1).
Proof. exact (init_validates_minimum_event_length 0). Defined.

Lemma init_keeps_minimum_at_least_one mel self :
  EventRecorder.__init__ mel = Ok self →
  1 ≤ EventRecorder.minimum_event_length self ∧
  EventRecorder.events self = None ∧
  EventRecorder._current_events self = None.
Proof.
  unfold EventRecorder.__init__.
  destruct (Z.ltb_spec (default 1 mel) 1); [discriminate |].
  intros [= <-]; simpl. auto.
Qed.

(** ** One pass of the loops *)

Lemma after_scenario_step ts trig si mel evs cur slot x :
  cur !! global_id si = Some slot →
  trig !! global_id si = Some x →
  EventRecorder.after_scenario ts trig si
    {| EventRecorder.minimum_event_length := mel;
       EventRecorder.events := Some evs;
       EventRecorder._current_events := Some cur |}
  = Returns tt
    {| EventRecorder.minimum_event_length := mel;
       EventRecorder.events :=
         Some (evs ++ option_list (closed_by_after mel ts slot x));
       EventRecorder._current_events :=
         Some (<[global_id si := slot_after ts si slot x]> cur) |}.
Proof.
  intros Hcur Htrig.
  assert (Hlt : (global_id si < length cur)%nat) by (eapply lookup_lt_Some; eauto).
  unfold EventRecorder.after_scenario, EventRecorder.get_current_event,
    EventRecorder.set_current_event, EventRecorder.append_event,
    bind, lift, gets, modify, ret, getitem, setitem; simpl.
  rewrite Htrig; simpl. rewrite Hcur; simpl.
  unfold closed_by_after, slot_after.
  destruct slot as [ev |]; destruct (truthy x); simpl;
    try destruct (mel <=? _); simpl;
    rewrite ?decide_True by done; simpl;
    rewrite ?app_nil_r; reflexivity.
Qed.

Lemma omap_cons_option_list {A B} (f : A → option B) a l :
  omap f (a :: l) = option_list (f a) ++ omap f l.
Proof. simpl. destruct (f a); reflexivity. Qed.

Lemma after_loop ts trig mel l : ∀ evs cur,
  NoDup (global_id <$> l) →
  Forall (λ si, (global_id si < length cur)%nat ∧
                (global_id si < length trig)%nat) l →
  ∃ cur',
    for_each l (EventRecorder.after_scenario ts trig)
      (EventRecorder.Build_t mel (Some evs) (Some cur))
    = Returns tt
        (EventRecorder.Build_t mel
           (Some (evs ++ closed_in_after mel ts cur trig l)) (Some cur')) ∧
    length cur' = length cur ∧
    (∀ si, si ∈ l →
       cur' !! global_id si
       = Some (slot_after ts si (slot_at cur (global_id si))
                 (triggered_at trig (global_id si)))) ∧
    (∀ i, i ∉ global_id <$> l → cur' !! i = cur !! i).
Proof.
  induction l as [| a l IH]; intros evs cur Hnd Hall.
  - exists cur. simpl. unfold ret, closed_in_after. simpl. rewrite app_nil_r.
    repeat split; auto. intros si Hin. inversion Hin.
  - rewrite fmap_cons in Hnd. apply NoDup_cons in Hnd as [Hfresh Hnd].
    apply Forall_cons in Hall as [[Hc Ht] Hall].
    destruct (lookup_lt_is_Some_2 cur _ Hc) as [slot Hslot].
    destruct (lookup_lt_is_Some_2 trig _ Ht) as [x Hx].
    set (cur1 := <[global_id a := slot_after ts a slot x]> cur).
    destruct (IH (evs ++ option_list (closed_by_after mel ts slot x)) cur1 Hnd)
      as (cur' & Hrun & Hlen & Hin & Hout).
    { unfold cur1. rewrite length_insert. exact Hall. }
    assert (Hsame : ∀ si, si ∈ l → slot_at cur1 (global_id si) = slot_at cur (global_id si)).
    { intros si Hsi. unfold slot_at, cur1. rewrite list_lookup_insert_ne; [done |].
      intros Heq. apply Hfresh. rewrite Heq. by apply list_elem_of_fmap_2. }
    exists cur'. split; [| split; [| split]].
    + cbn [for_each]. unfold bind at 1. rewrite (after_scenario_step _ _ _ _ _ _ slot x) by done.
      fold cur1. rewrite Hrun. do 3 f_equal. rewrite <- app_assoc. f_equal.
      unfold closed_in_after. rewrite omap_cons_option_list.
      unfold slot_at at 2, triggered_at at 2. rewrite Hslot, Hx. simpl. f_equal.
      apply list_omap_ext. apply Forall2_same_length_lookup_2; [done |].
      intros i si si' H1 H2. assert (si' = si) as -> by congruence.
      rewrite Hsame; [done |]. eapply list_elem_of_lookup_2; eauto.
    + rewrite Hlen. unfold cur1. apply length_insert.
    + intros si [-> | Hsi]%elem_of_cons.
      * rewrite Hout by done. unfold cur1.
        rewrite list_lookup_insert_eq by done.
        unfold slot_at, triggered_at. rewrite Hslot, Hx. reflexivity.
      * rewrite Hin by done. rewrite Hsame by done. reflexivity.
    + intros i Hi. rewrite fmap_cons in Hi. apply not_elem_of_cons in Hi as [Hne Hi].
      rewrite Hout by done. unfold cur1. by rewrite list_lookup_insert_ne.
Qed.

(** ** Well-formed scenario combinations *)

Lemma wf_combinations_NoDup model :
  wf_combinations model → NoDup (global_id <$> combinations model).
Proof. intros Hwf. unfold wf_combinations in Hwf. rewrite Hwf. apply NoDup_seq. Qed.

Lemma wf_combinations_lt model si :
  wf_combinations model → si ∈ combinations model →
  (global_id si < length (combinations model))%nat.
Proof.
  intros Hwf Hin.
  assert (Hid : global_id si ∈ global_id <$> combinations model)
    by (by apply list_elem_of_fmap_2).
  unfold wf_combinations in Hwf. rewrite Hwf in Hid.
  apply elem_of_seq in Hid. lia.
Qed.

Lemma wf_combinations_covers model i :
  wf_combinations model → (i < length (combinations model))%nat →
  ∃ si, si ∈ combinations model ∧ global_id si = i.
Proof.
  intros Hwf Hi.
  assert (Hid : i ∈ global_id <$> combinations model).
  { unfold wf_combinations in Hwf. rewrite Hwf. apply elem_of_seq. lia. }
  apply list_elem_of_fmap in Hid as (si & -> & Hin). eauto.
Qed.

(** ** A whole call of [after] *)

Lemma after_spec model threshold trig self evs cur :
  wf_combinations model →
  ready model self evs cur →
  EventRecorder.all_triggered threshold = Ok trig →
  (length (combinations model) ≤ length trig)%nat →
  ∃ cur',
    EventRecorder.after model threshold self
    = Returns tt
        (EventRecorder.Build_t (EventRecorder.minimum_event_length self)
           (Some (evs ++ closed_in_after (EventRecorder.minimum_event_length self)
                           (current model) cur trig (combinations model)))
           (Some cur')) ∧
    length cur' = length (combinations model) ∧
    (∀ si, si ∈ combinations model →
       cur' !! global_id si
       = Some (slot_after (current model) si (slot_at cur (global_id si))
                 (triggered_at trig (global_id si)))).
Proof.
  intros Hwf (Hevs & Hcur & Hlen) Htrig Hn.
  destruct self as [mel evs0 cur0]; simpl in *; subst evs0 cur0.
  destruct (after_loop (current model) trig mel (combinations model) evs cur)
    as (cur' & Hrun & Hlen' & Hin & _).
  { by apply wf_combinations_NoDup. }
  { apply Forall_forall. intros si Hsi.
    pose proof (wf_combinations_lt _ _ Hwf Hsi). lia. }
  exists cur'. split; [| split; [lia | exact Hin]].
  unfold EventRecorder.after, bind. rewrite Htrig. simpl. exact Hrun.
Qed.

(** ** The event state machine *)


(** C9. Open-slot tracking.  Right after a call of [after], the slot of
    every scenario is occupied if and only if that scenario's entry of the
    indicator array was non-zero on this call, whatever the slot held
    before.  A slot holds at most one event by its type. *)
Theorem after_slot_occupied_iff_triggered model threshold trig self evs cur :
  wf_combinations model →
  ready model self evs cur →
  EventRecorder.all_triggered threshold = Ok trig →
  (length (combinations model) ≤ length trig)%nat →
  ∃ self' cur',
    EventRecorder.after model threshold self = Returns tt self' ∧
    EventRecorder._current_events self' = Some cur' ∧
    length cur' = length cur ∧
    ∀ i, (i < length (combinations model))%nat →
      ∃ slot x, cur' !! i = Some slot ∧ trig !! i = Some x ∧
                (is_Some slot ↔ x ≠ 0).
Proof.
  intros Hwf Hready Htrig Hn.
  destruct (after_spec _ _ _ _ _ _ Hwf Hready Htrig Hn) as (cur' & Hrun & Hlen & Hin).
  destruct Hready as (_ & _ & Hlencur).
  eexists _, cur'. split; [exact Hrun |]. simpl.
  split; [done |]. split; [lia |].
  intros i Hi.
  destruct (wf_combinations_covers _ _ Hwf Hi) as (si & Hsi & <-).
  destruct (lookup_lt_is_Some_2 trig (global_id si)) as [x Hx]; [lia |].
  eexists _, x. split; [exact (Hin si Hsi) |]. split; [done |].
  unfold triggered_at. rewrite Hx. simpl. unfold slot_after, truthy.
  destruct (Z.eqb_spec x 0) as [-> | Hne]; simpl.
  - destruct (slot_at cur (global_id si)); (split; [intros [? ?]; discriminate | intros H; by destruct H]).
  - destruct (slot_at cur (global_id si)); split; eauto.
Qed.

(** ** [finish] *)

Lemma finish_scenario_step ts si mel evs cur slot :
  cur !! global_id si = Some slot →
  EventRecorder.finish_scenario ts si
    (EventRecorder.Build_t mel (Some evs) (Some cur))
  = Returns tt
      (EventRecorder.Build_t mel
         (Some (evs ++ option_list ((λ ev, Event_.set_end ev ts) <$> slot)))
         (Some (<[global_id si := None]> cur))).
Proof.
  intros Hcur.
  assert (Hlt : (global_id si < length cur)%nat) by (eapply lookup_lt_Some; eauto).
  unfold EventRecorder.finish_scenario, EventRecorder.get_current_event,
    EventRecorder.set_current_event, EventRecorder.append_event,
    bind, lift, gets, modify, ret, getitem, setitem; simpl.
  rewrite Hcur; simpl.
  destruct slot as [ev |]; simpl.
  - rewrite decide_True by done. reflexivity.
  - rewrite app_nil_r, list_insert_id by done. reflexivity.
Qed.

Lemma finish_loop ts mel l : ∀ evs cur,
  NoDup (global_id <$> l) →
  Forall (λ si, (global_id si < length cur)%nat) l →
  ∃ cur',
    for_each l (EventRecorder.finish_scenario ts)
      (EventRecorder.Build_t mel (Some evs) (Some cur))
    = Returns tt
        (EventRecorder.Build_t mel
           (Some (evs ++ closed_in_finish ts cur l)) (Some cur')) ∧
    length cur' = length cur ∧
    (∀ si, si ∈ l → cur' !! global_id si = Some None) ∧
    (∀ i, i ∉ global_id <$> l → cur' !! i = cur !! i).
Proof.
  induction l as [| a l IH]; intros evs cur Hnd Hall.
  - exists cur. cbn [for_each]. unfold ret, closed_in_finish. simpl.
    rewrite app_nil_r. repeat split; auto. intros si Hin. inversion Hin.
  - rewrite fmap_cons in Hnd. apply NoDup_cons in Hnd as [Hfresh Hnd].
    apply Forall_cons in Hall as [Hc Hall].
    destruct (lookup_lt_is_Some_2 cur _ Hc) as [slot Hslot].
    set (cur1 := <[global_id a := None]> cur).
    destruct (IH (evs ++ option_list ((λ ev, Event_.set_end ev ts) <$> slot)) cur1 Hnd)
      as (cur' & Hrun & Hlen & Hin & Hout).
    { unfold cur1. rewrite length_insert. exact Hall. }
    exists cur'. split; [| split; [| split]].
    + cbn [for_each]. unfold bind at 1.
      rewrite (finish_scenario_step _ _ _ _ _ slot) by done.
      fold cur1. rewrite Hrun. do 3 f_equal. rewrite <- app_assoc. f_equal.
      unfold closed_in_finish. rewrite omap_cons_option_list.
      unfold slot_at at 2. rewrite Hslot. simpl. f_equal.
      apply list_omap_ext. apply Forall2_same_length_lookup_2; [done |].
      intros i si si' H1 H2. assert (si' = si) as -> by congruence.
      unfold slot_at, cur1. rewrite list_lookup_insert_ne; [done |].
      intros Heq. apply Hfresh. rewrite Heq.
      apply list_elem_of_fmap_2. eapply list_elem_of_lookup_2; eauto.
    + rewrite Hlen. unfold cur1. apply length_insert.
    + intros si [-> | Hsi]%elem_of_cons.
      * rewrite Hout by done. unfold cur1. by rewrite list_lookup_insert_eq.
      * by apply Hin.
    + intros i Hi. rewrite fmap_cons in Hi. apply not_elem_of_cons in Hi as [Hne Hi].
      rewrite Hout by done. unfold cur1. by rewrite list_lookup_insert_ne.
Qed.

Lemma all_slots_empty {A} (c : list (option A)) n :
  length c = n → (∀ i, (i < n)%nat → c !! i = Some None) → c = replicate n None.
Proof.
  intros Hlen Hall. apply list_eq. intros i.
  destruct (decide (i < n)%nat) as [Hi | Hi].
  - rewrite Hall by done. symmetry. by apply lookup_replicate_2.
  - rewrite !lookup_ge_None_2; [done | rewrite length_replicate; lia | lia].
Qed.


Lemma finish_spec model self evs cur :
  wf_combinations model →
  ready model self evs cur →
  EventRecorder.finish model self
  = Returns tt
      (EventRecorder.Build_t (EventRecorder.minimum_event_length self)
         (Some (evs ++ closed_in_finish (current model) cur (combinations model)))
         (Some (replicate (length (combinations model)) None))).
Proof.
  intros Hwf (Hevs & Hcur & Hlen).
  destruct self as [mel evs0 cur0]; simpl in *; subst evs0 cur0.
  destruct (finish_loop (current model) mel (combinations model) evs cur)
    as (cur' & Hrun & Hlen' & Hin & _).
  { by apply wf_combinations_NoDup. }
  { apply Forall_forall. intros si Hsi.
    pose proof (wf_combinations_lt _ _ Hwf Hsi). lia. }
  unfold EventRecorder.finish. rewrite Hrun. do 3 f_equal.
  apply all_slots_empty; [lia |].
  intros i Hi. destruct (wf_combinations_covers _ _ Hwf Hi) as (si & Hsi & <-).
  by apply Hin.
Qed.


(** ** The length of the indicator array *)

Lemma after_loop_short ts trig mel l : ∀ evs cur,
  Forall (λ si, (global_id si < length cur)%nat) l →
  Exists (λ si, (length trig ≤ global_id si)%nat) l →
  ∃ self',
    for_each l (EventRecorder.after_scenario ts trig)
      (EventRecorder.Build_t mel (Some evs) (Some cur))
    = Raises IndexError self'.
Proof.
  induction l as [| a l IH]; intros evs cur Hall Hex.
  - inversion Hex.
  - apply Forall_cons in Hall as [Hc Hall].
    cbn [for_each]. unfold bind at 1.
    destruct (decide (global_id a < length trig)%nat) as [Hlt | Hge].
    + destruct (lookup_lt_is_Some_2 cur _ Hc) as [slot Hslot].
      destruct (lookup_lt_is_Some_2 trig _ Hlt) as [x Hx].
      rewrite (after_scenario_step _ _ _ _ _ _ slot x) by done.
      apply IH.
      * by rewrite length_insert.
      * apply Exists_cons in Hex as [Hhd | Htl]; [lia | done].
    + unfold EventRecorder.after_scenario, bind, lift, getitem.
      rewrite lookup_ge_None_2 by lia. simpl. eauto.
Qed.

Lemma closed_in_after_take mel ts cur trig n l :
  Forall (λ si, (global_id si < n)%nat) l →
  closed_in_after mel ts cur (take n trig) l = closed_in_after mel ts cur trig l.
Proof.
  intros Hall. unfold closed_in_after. apply list_omap_ext.
  apply Forall2_same_length_lookup_2; [done |].
  intros i si si' H1 H2. assert (si' = si) as -> by congruence.
  assert (Hlt : (global_id si < n)%nat).
  { eapply (proj1 (Forall_forall _ _) Hall). eapply list_elem_of_lookup_2; eauto. }
  unfold triggered_at. by rewrite lookup_take_lt.
Qed.

(** C5, as the code has it.  [after] does not compare the length of the
    indicator array with the number of scenarios.  An array that is too
    short makes the call raise (an [IndexError], at the first scenario whose
    id is out of its range); an array that is too long is accepted, and the
    call does what it does on the first N entries alone. *)
Theorem after_indicator_length model threshold trig self evs cur :
  wf_combinations model →
  ready model self evs cur →
  EventRecorder.all_triggered threshold = Ok trig →
  ((length trig < length (combinations model))%nat →
   ∃ self', EventRecorder.after model threshold self = Raises IndexError self') ∧
  ((length (combinations model) ≤ length trig)%nat →
   ∃ self',
     EventRecorder.after model threshold self = Returns tt self' ∧
     EventRecorder.after model
       (IndexParameterThreshold (take (length (combinations model)) trig)) self
     = Returns tt self').
Proof.
  intros Hwf Hready Htrig. split.
  - intros Hshort. destruct Hready as (Hevs & Hcur & Hlen).
    destruct self as [mel evs0 cur0]; simpl in *; subst evs0 cur0.
    unfold EventRecorder.after, bind. rewrite Htrig. simpl.
    apply after_loop_short.
    + apply Forall_forall. intros si Hsi.
      pose proof (wf_combinations_lt _ _ Hwf Hsi). lia.
    + destruct (wf_combinations_covers _ (length trig) Hwf Hshort) as (si & Hsi & Hid).
      apply Exists_exists. exists si. split; [done | lia].
  - intros Hlong.
    destruct (after_spec _ _ _ _ _ _ Hwf Hready Htrig Hlong)
      as (cur1 & Hrun1 & Hlen1 & Hin1).
    destruct (after_spec model
                (IndexParameterThreshold (take (length (combinations model)) trig))
                (take (length (combinations model)) trig) self evs cur Hwf Hready)
      as (cur2 & Hrun2 & Hlen2 & Hin2); [done | rewrite length_take; lia |].
    eexists. split; [exact Hrun1 |]. rewrite Hrun2. do 2 f_equal.
    + f_equal. f_equal. apply closed_in_after_take.
      apply Forall_forall. intros si Hsi. by apply wf_combinations_lt.
    + f_equal. apply list_eq_same_length with (length (combinations model)); [done.. |].
      intros i s2 s1 Hi H2 H1.
      destruct (wf_combinations_covers _ _ Hwf Hi) as (si & Hsi & <-).
      rewrite (Hin1 si Hsi) in H1. rewrite (Hin2 si Hsi) in H2.
      unfold triggered_at in H1, H2. rewrite lookup_take_lt in H2; [congruence |].
      by apply wf_combinations_lt.
Qed.

(** C5, counterexample.  With one scenario and an indicator array of length
    two the call returns normally: no error is raised, and the second entry
    is ignored. *)
Lemma after_accepts_longer_indicator_array :
  length [1; 1] ≠ length (combinations (model1 (day 0))) ∧
  EventRecorder.after (model1 (day 0)) (IndexParameterThreshold [1; 1])
    (EventRecorder.Build_t 1 (Some []) (Some [None]))
  = Returns tt
      (EventRecorder.Build_t 1 (Some []) (Some [Some (opened (day 0) scenario0)])).
Proof. split; [by compute | reflexivity]. Qed.

(** C4, at the failing input.  A [Parameter] (or [Recorder]) threshold whose
    value is 0.5 is non-zero, yet after the conversion to integers it counts
    as not triggered: no event opens, and an open event is closed. *)
Theorem after_truncates_fractional_indicator :
  ¬ ((1 # 2) == 0)%Q ∧
  EventRecorder.after (model1 (day 0)) (ParameterThreshold [(1 # 2)%Q])
    (EventRecorder.Build_t 1 (Some []) (Some [None]))
  = Returns tt (EventRecorder.Build_t 1 (Some []) (Some [None])) ∧
  EventRecorder.after (model1 (day 0)) (RecorderThreshold [(1 # 2)%Q])
    (EventRecorder.Build_t 1 (Some []) (Some [None]))
  = Returns tt (EventRecorder.Build_t 1 (Some []) (Some [None])) ∧
  EventRecorder.after (model1 (day 3)) (ParameterThreshold [(1 # 2)%Q])
    (EventRecorder.Build_t 1 (Some []) (Some [Some (opened (day 1) scenario0)]))
  = Returns tt
      (EventRecorder.Build_t 1 (Some [recorded (day 1) (day 3) scenario0])
         (Some [None])).
Proof. repeat split; try reflexivity. intros H. discriminate H. Qed.

(** ** Invariants along a run *)

Lemma for_each_preserves {S A} (P : S → Prop) (body : A → M S unit) l :
  (∀ x s s', body x s = Returns tt s' → P s → P s') →
  ∀ s s', for_each l body s = Returns tt s' → P s → P s'.
Proof.
  intros Hbody. induction l as [| a l IH]; intros s s' Hrun Hs.
  - cbn in Hrun. unfold ret in Hrun. congruence.
  - cbn [for_each] in Hrun. unfold bind in Hrun.
    destruct (body a s) as [[] s1 | e s1] eqn:Ha; [| discriminate].
    eapply IH; [exact Hrun |]. eapply Hbody; eauto.
Qed.

Lemma inv_weaken mel Good (Open Open' : Event → Prop) self :
  (∀ ev, Open ev → Open' ev) → inv mel Good Open self → inv mel Good Open' self.
Proof.
  intros Hw (Hmel & Hevs & Hcur). split; [done |]. split; [done |].
  intros cur Hc. eapply Forall_impl; [by apply Hcur |].
  intros slot Hslot ev ->. apply Hw. by apply Hslot.
Qed.

Section Preservation.

Variable mel : Z.
Variables Good Open : Event → Prop.

Lemma after_scenario_inv ts trig si s s' :
  Open (Event_.__init__ ts si) →
  (∀ ev, Open ev → mel ≤ index ts - index (start ev) →
         Good (Event_.set_end ev ts)) →
  EventRecorder.after_scenario ts trig si s = Returns tt s' →
  inv mel Good Open s → inv mel Good Open s'.
Proof.
  intros Hnew Hclose Hrun (Hmel & Hevs & Hcur).
  destruct s as [m evs cur]. simpl in Hmel. subst m.
  unfold EventRecorder.after_scenario, EventRecorder.get_current_event,
    EventRecorder.set_current_event, EventRecorder.append_event,
    bind, lift, gets, modify, ret, raise, getitem, setitem in Hrun.
  simpl in Hrun.
  destruct (trig !! global_id si) as [x |]; simpl in Hrun; [| discriminate].
  destruct cur as [cur |]; simpl in Hrun; [| discriminate].
  specialize (Hcur cur eq_refl).
  destruct (cur !! global_id si) as [slot |] eqn:Hslot; simpl in Hrun;
    [| discriminate].
  assert (Hopen : ∀ ev, slot = Some ev → Open ev).
  { eapply (proj1 (Forall_lookup _ _) Hcur); eauto. }
  destruct slot as [ev |]; destruct (truthy x); simpl in Hrun.
  - destruct (decide _); simpl in Hrun; [| discriminate].
    injection Hrun as <-. split; [done |]. split; [done |]. simpl.
    intros ? [= <-]. by apply Forall_insert.
  - destruct (Z.leb_spec mel (index ts - index (start ev))) as [Hle | Hgt];
      simpl in Hrun.
    + destruct evs as [evs |]; simpl in Hrun; [| discriminate].
      destruct (decide _); simpl in Hrun; [| discriminate].
      injection Hrun as <-. split; [done |]. simpl. split.
      * intros ? [= <-]. apply Forall_app. split; [by apply Hevs |].
        apply Forall_singleton. apply Hclose; [by apply Hopen | done].
      * intros ? [= <-]. apply Forall_insert; [done | discriminate].
    + destruct (decide _); simpl in Hrun; [| discriminate].
      injection Hrun as <-. split; [done |]. split; [done |]. simpl.
      intros ? [= <-]. apply Forall_insert; [done | discriminate].
  - destruct (decide _); simpl in Hrun; [| discriminate].
    injection Hrun as <-. split; [done |]. split; [done |]. simpl.
    intros ? [= <-]. apply Forall_insert; [done |]. by intros ? [= <-].
  - destruct (decide _); simpl in Hrun; [| discriminate].
    injection Hrun as <-. split; [done |]. split; [done |]. simpl.
    intros ? [= <-]. apply Forall_insert; [done | discriminate].
Qed.

Lemma after_inv model threshold s s' :
  (∀ si, Open (Event_.__init__ (current model) si)) →
  (∀ ev, Open ev → mel ≤ index (current model) - index (start ev) →
         Good (Event_.set_end ev (current model))) →
  EventRecorder.after model threshold s = Returns tt s' →
  inv mel Good Open s → inv mel Good Open s'.
Proof.
  intros Hnew Hclose Hrun Hinv.
  unfold EventRecorder.after, bind, lift in Hrun.
  destruct (EventRecorder.all_triggered threshold) as [trig | e]; simpl in Hrun;
    [| discriminate].
  revert Hrun Hinv. apply for_each_preserves.
  intros si s1 s2 Hstep. eapply after_scenario_inv; eauto.
Qed.

Lemma finish_scenario_inv ts si s s' :
  (∀ ev, Open ev → Good (Event_.set_end ev ts)) →
  EventRecorder.finish_scenario ts si s = Returns tt s' →
  inv mel Good Open s → inv mel Good Open s'.
Proof.
  intros Hclose Hrun (Hmel & Hevs & Hcur).
  destruct s as [m evs cur]. simpl in Hmel. subst m.
  unfold EventRecorder.finish_scenario, EventRecorder.get_current_event,
    EventRecorder.set_current_event, EventRecorder.append_event,
    bind, lift, gets, modify, ret, raise, getitem, setitem in Hrun.
  simpl in Hrun.
  destruct cur as [cur |]; simpl in Hrun; [| discriminate].
  specialize (Hcur cur eq_refl).
  destruct (cur !! global_id si) as [slot |] eqn:Hslot; simpl in Hrun;
    [| discriminate].
  destruct slot as [ev |]; simpl in Hrun.
  - destruct evs as [evs |]; simpl in Hrun; [| discriminate].
    destruct (decide _); simpl in Hrun; [| discriminate].
    injection Hrun as <-. split; [done |]. simpl. split.
    + intros ? [= <-]. apply Forall_app. split; [by apply Hevs |].
      apply Forall_singleton. apply Hclose.
      eapply (proj1 (Forall_lookup _ _) Hcur); eauto.
    + intros ? [= <-]. apply Forall_insert; [done | discriminate].
  - injection Hrun as <-. split; [done |]. split; [done |]. simpl.
    by intros ? [= <-].
Qed.

Lemma finish_inv model s s' :
  (∀ ev, Open ev → Good (Event_.set_end ev (current model))) →
  EventRecorder.finish model s = Returns tt s' →
  inv mel Good Open s → inv mel Good Open s'.
Proof.
  intros Hclose. unfold EventRecorder.finish. apply for_each_preserves.
  intros si s1 s2 Hstep. eapply finish_scenario_inv; eauto.
Qed.

End Preservation.

Lemma reset_inv mel Good Open model s :
  EventRecorder.minimum_event_length s = mel →
  ∃ s', EventRecorder.reset model s = Returns tt s' ∧ inv mel Good Open s'.
Proof.
  intros Hmel. eexists. split; [reflexivity |].
  split; [done |]. simpl. split.
  - intros ? [= <-]. constructor.
  - intros ? [= <-]. apply Forall_forall. intros slot Hslot ev ->.
    apply list_elem_of_In, in_map_iff in Hslot as (? & [=] & _).
Qed.

Lemma afters_spans mel model steps : ∀ s s',
  afters model steps s = Returns tt s' →
  inv mel (spans mel) (λ _, True) s → inv mel (spans mel) (λ _, True) s'.
Proof.
  induction steps as [| [ts threshold] steps IH]; intros s s' Hrun Hinv.
  - cbn in Hrun. unfold ret in Hrun. congruence.
  - cbn [afters] in Hrun. unfold bind in Hrun.
    destruct (EventRecorder.after _ _ s) as [[] s1 | e s1] eqn:Hstep; [| discriminate].
    apply (IH s1 s' Hrun).
    eapply after_inv; [| | exact Hstep | exact Hinv]; [done |].
    intros ev _ Hlen. exists ts. split; [done |]. exact Hlen.
Qed.

Lemma last_timestep_cons prev ts threshold steps :
  last_timestep prev ((ts, threshold) :: steps) = last_timestep ts steps.
Proof.
  unfold last_timestep. simpl. rewrite last_cons.
  by destruct (last (map fst steps)).
Qed.

Lemma afters_ascending key mel model steps : ∀ prev s s',
  ascending_from key prev (map fst steps) →
  afters model steps s = Returns tt s' →
  inv mel (ends_after_start key) (λ ev, key (start ev) ≤ key prev) s →
  inv mel (ends_after_start key)
    (λ ev, key (start ev) ≤ key (last_timestep prev steps)) s'.
Proof.
  induction steps as [| [ts threshold] steps IH]; intros prev s s' Hasc Hrun Hinv.
  - cbn in Hrun. unfold ret in Hrun. injection Hrun as <-. exact Hinv.
  - cbn [afters] in Hrun. unfold bind in Hrun.
    destruct (EventRecorder.after _ _ s) as [[] s1 | e s1] eqn:Hstep; [| discriminate].
    destruct Hasc as [Hle Hasc]. simpl in Hle.
    rewrite last_timestep_cons. apply (IH ts s1 s' Hasc Hrun).
    eapply after_inv; [| | exact Hstep |].
    + intros si. simpl. lia.
    + intros ev Hev _. exists ts. split; [done |]. exact Hev.
    + eapply inv_weaken; [| exact Hinv]. intros ev Hev. simpl in Hev |- *. lia.
Qed.

Lemma ascending_from_app key prev l final :
  ascending_from key prev (l ++ [final]) →
  ascending_from key prev l ∧ key (default prev (last l)) ≤ key final.
Proof.
  revert prev. induction l as [| a l IH]; intros prev Hasc.
  - simpl in *. tauto.
  - simpl in Hasc. destruct Hasc as [Hle Hasc].
    destruct (IH a Hasc) as [Hl Hlast]. split; [by split |].
    rewrite last_cons. by destruct (last l).
Qed.

(** Along a run whose time-steps, and then the final time-step, come in
    non-decreasing order of [key], every event that [finish] leaves in the
    list has an end that is not before its start. *)
Lemma run_finish_ends_after_start key mel model steps final self0 self self' evs :
  EventRecorder.__init__ mel = Ok self0 →
  ascending key (map fst steps ++ [final]) →
  run model steps self0 = Returns tt self →
  EventRecorder.finish (with_current model final) self = Returns tt self' →
  EventRecorder.events self' = Some evs →
  Forall (ends_after_start key) evs.
Proof.
  intros Hinit Hasc Hrun Hfin Hevs.
  unfold run, bind in Hrun.
  set (prev := default final (head (map fst steps))).
  destruct (reset_inv (EventRecorder.minimum_event_length self0)
              (ends_after_start key) (λ ev, key (start ev) ≤ key prev) model self0 eq_refl)
    as (s1 & Hreset & Hinv1).
  rewrite Hreset in Hrun.
  assert (Hfrom : ascending_from key prev (map fst steps ++ [final])).
  { unfold prev. destruct steps as [| [ts threshold] steps]; simpl in *; [lia |].
    split; [lia | done]. }
  apply ascending_from_app in Hfrom as [Hfrom Hlast].
  pose proof (afters_ascending key _ model steps prev s1 self Hfrom Hrun Hinv1) as Hinv.
  eapply finish_inv in Hinv; [| | exact Hfin].
  - destruct Hinv as (_ & Hgood & _). by apply Hgood.
  - intros ev Hev. exists final. split; [done |]. simpl in Hev |- *.
    unfold last_timestep in Hev. lia.
Qed.



(** ** The tabular export *)

Lemma fill_spec evs :
  Forall (λ e, is_Some (end_ e)) evs →
  EventRecorder.fill evs
  = Ok ((λ e, CInt (Z.of_nat (global_id (scenario_index e)))) <$> evs,
        (λ e, CTimestamp (datetime (start e))) <$> evs,
        (λ e, CTimestamp (end_instant e)) <$> evs).
Proof.
  induction 1 as [| e evs [t Ht] _ IH]; [reflexivity |].
  cbn [EventRecorder.fill]. rewrite Ht, IH. simpl.
  unfold end_instant. rewrite Ht. reflexivity.
Qed.

Lemma to_dataframe_spec self evs :
  EventRecorder.events self = Some evs →
  Forall (λ e, is_Some (end_ e)) evs →
  EventRecorder.to_dataframe self
  = Ok [("scenario_id", (λ e, CInt (Z.of_nat (global_id (scenario_index e)))) <$> evs);
        ("start", (λ e, CTimestamp (datetime (start e))) <$> evs);
        ("end", (λ e, CTimestamp (end_instant e)) <$> evs)].
Proof.
  intros Hevs Hall. unfold EventRecorder.to_dataframe. rewrite Hevs.
  destruct evs as [| e evs]; [reflexivity |].
  cbn [length Nat.eqb]. rewrite fill_spec by done. reflexivity.
Qed.

(** C10. The export of an empty event list is the table with the three
    columns [scenario_id], [start], [end] and no row.  Otherwise the table
    has one row per event, in the order of the list, and row [i] carries the
    scenario id, the start instant and the end instant of event [i]. *)
Theorem to_dataframe_rows self evs :
  EventRecorder.events self = Some evs →
  Forall (λ e, is_Some (end_ e)) evs →
  ∃ scen_id starts ends,
    EventRecorder.to_dataframe self
    = Ok [("scenario_id", scen_id); ("start", starts); ("end", ends)] ∧
    df_columns [("scenario_id", scen_id); ("start", starts); ("end", ends)]
    = ["scenario_id"; "start"; "end"] ∧
    df_len [("scenario_id", scen_id); ("start", starts); ("end", ends)] = length evs ∧
    length scen_id = length evs ∧ length starts = length evs ∧
    length ends = length evs ∧
    (evs = [] → scen_id = [] ∧ starts = [] ∧ ends = []) ∧
    (∀ i evt, evs !! i = Some evt →
       scen_id !! i = Some (CInt (Z.of_nat (global_id (scenario_index evt)))) ∧
       starts !! i = Some (CTimestamp (datetime (start evt))) ∧
       ∃ t, end_ evt = Some t ∧ ends !! i = Some (CTimestamp (datetime t))).
Proof.
  intros Hevs Hall. eexists _, _, _.
  split; [by apply to_dataframe_spec |].
  split; [reflexivity |]. simpl. rewrite !length_fmap.
  repeat (split; [reflexivity |]).
  split; [by intros -> |].
  intros i evt Hi. rewrite !list_lookup_fmap, Hi. simpl.
  split; [done |]. split; [done |].
  destruct (proj1 (Forall_lookup _ _) Hall i evt Hi) as [t Ht].
  exists t. split; [done |]. unfold end_instant. by rewrite Ht.
Qed.

(** The events a run leaves in the list all have their end assigned. *)
Lemma run_finish_events_ended mel model steps final self0 self self' evs :
  EventRecorder.__init__ mel = Ok self0 →
  run model steps self0 = Returns tt self →
  EventRecorder.finish (with_current model final) self = Returns tt self' →
  EventRecorder.events self' = Some evs →
  Forall (λ e, is_Some (end_ e)) evs.
Proof.
  intros Hinit Hrun Hfin Hevs.
  unfold run, bind in Hrun.
  destruct (reset_inv (EventRecorder.minimum_event_length self0)
              (λ e, is_Some (end_ e)) (λ _, True) model self0 eq_refl)
    as (s1 & Hreset & Hinv1).
  rewrite Hreset in Hrun.
  assert (Hinv : inv (EventRecorder.minimum_event_length self0)
                   (λ e, is_Some (end_ e)) (λ _, True) self).
  { clear Hreset Hfin. revert s1 Hrun Hinv1.
    induction steps as [| [ts threshold] steps IH]; intros s1 Hrun Hinv1.
    - cbn in Hrun. unfold ret in Hrun. congruence.
    - cbn [afters] in Hrun. unfold bind in Hrun.
      destruct (EventRecorder.after _ _ s1) as [[] s2 | e s2] eqn:Hstep; [| discriminate].
      apply (IH s2 Hrun). eapply after_inv; [| | exact Hstep | exact Hinv1]; [done |].
      intros ev _ _. by eexists. }
  eapply finish_inv in Hinv; [| | exact Hfin].
  - destruct Hinv as (_ & Hgood & _). by apply Hgood.
  - intros ev _. by eexists.
Qed.

(** ** The columns computed by [EventDurationRecorder.finish] *)

Lemma series_sub_timestamps {A} (f g : A → Z) (l : list A) :
  series_sub ((λ a, CTimestamp (f a)) <$> l) ((λ a, CTimestamp (g a)) <$> l)
  = Ok ((λ a, CTimedelta (f a - g a)) <$> l).
Proof.
  induction l as [| a l IH]; [reflexivity |].
  rewrite !fmap_cons. cbn [series_sub cell_sub rbind]. by rewrite IH.
Qed.

Lemma dt_days_timedeltas {A} (f : A → Z) (l : list A) :
  dt_days ((λ a, CTimedelta (f a)) <$> l) = Ok ((λ a, CInt (days (f a))) <$> l).
Proof.
  induction l as [| a l IH]; [reflexivity |].
  rewrite !fmap_cons. cbn [dt_days rbind]. by rewrite IH.
Qed.

Lemma as_ints_ints {A} (f : A → Z) (l : list A) :
  as_ints ((λ a, CInt (f a)) <$> l) = Ok (f <$> l).
Proof.
  induction l as [| a l IH]; [reflexivity |].
  rewrite !fmap_cons. cbn [as_ints rbind]. by rewrite IH.
Qed.

Lemma group_values_filter {A} (kf vf : A → Z) (k : Z) (l : list A) :
  group_values k (kf <$> l) (vf <$> l) = vf <$> filter (λ a, kf a = k) l.
Proof.
  induction l as [| a l IH]; [reflexivity |].
  rewrite !fmap_cons. cbn [group_values]. rewrite filter_cons.
  destruct (Z.eqb_spec (kf a) k) as [Heq | Hne].
  - rewrite decide_True by done. rewrite fmap_cons. by rewrite IH.
  - rewrite decide_False by done. exact IH.
Qed.

Lemma elem_of_insert_key k ks x : x ∈ insert_key k ks ↔ x = k ∨ x ∈ ks.
Proof.
  induction ks as [| y ks IH]; simpl.
  - rewrite list_elem_of_singleton. split; [auto | intros [? | H]; [done | inversion H]].
  - destruct (Z.ltb_spec k y).
    + by rewrite elem_of_cons.
    + destruct (Z.eqb_spec k y) as [-> | Hne].
      * rewrite elem_of_cons. tauto.
      * rewrite !elem_of_cons, IH. tauto.
Qed.

Lemma elem_of_group_keys ks x : x ∈ group_keys ks ↔ x ∈ ks.
Proof.
  unfold group_keys. induction ks as [| k ks IH]; simpl; [done |].
  rewrite elem_of_insert_key, elem_of_cons, IH. tauto.
Qed.

Lemma store_groups func (f : Z → Q) keys : ∀ vals,
  Forall (λ k, 0 ≤ k < Z.of_nat (length vals)) keys →
  ∃ vals',
    for_each (map (λ k, (k, [("duration", CFloat (f k))])) keys)
      (λ '(index, row),
         do x <~ lift (row_get row "duration") ;;
         EventDurationRecorder.set_value index x)
      (EventDurationRecorder.Build_t func (Some vals))
    = Returns tt (EventDurationRecorder.Build_t func (Some vals')) ∧
    length vals' = length vals ∧
    ∀ i, (i < length vals)%nat →
      vals' !! i = if decide (Z.of_nat i ∈ keys) then Some (f (Z.of_nat i))
                   else vals !! i.
Proof.
  induction keys as [| k keys IH]; intros vals Hall.
  - exists vals. split; [reflexivity |]. split; [done |].
    intros i Hi. rewrite decide_False; [done |]. intros H. inversion H.
  - apply Forall_cons in Hall as [Hk Hall].
    destruct (IH (<[Z.to_nat k := f k]> vals)) as (vals' & Hrun & Hlen & Hlook).
    { by rewrite length_insert. }
    rewrite length_insert in Hlen.
    exists vals'. split; [| split; [done |]].
    + cbn [map for_each]. unfold bind at 1.
      unfold EventDurationRecorder.set_value, bind, lift, gets, modify, ret,
        as_float, np_setitem. simpl.
      destruct (Z.leb_spec 0 k); [| lia].
      destruct (Z.ltb_spec k (Z.of_nat (length vals))); [| lia].
      simpl. exact Hrun.
    + intros i Hi. rewrite Hlook by (by rewrite length_insert).
      destruct (decide (Z.of_nat i = k)) as [<- | Hne].
      * rewrite (decide_True (P := _ ∈ _ :: _)) by (by left).
        rewrite Nat2Z.id, list_lookup_insert_eq by done.
        by destruct (decide _).
      * rewrite list_lookup_insert_ne by lia.
        destruct (decide (Z.of_nat i ∈ keys)) as [Hin | Hout].
        -- rewrite decide_True; [done | by right].
        -- rewrite decide_False; [done |].
           intros [? | ?]%elem_of_cons; done.
Qed.

(** ** A whole call of [EventDurationRecorder.finish] *)

Lemma lookup_map_const {A B} (x : B) (l : list A) i :
  (i < length l)%nat → map (λ _, x) l !! i = Some x.
Proof.
  intros Hi. change (map (λ _, x) l) with ((λ _, x) <$> l).
  rewrite list_lookup_fmap. destruct (lookup_lt_is_Some_2 l i Hi) as [a ->]. done.
Qed.

Lemma duration_finish_groups er evs func vals :
  EventRecorder.events er = Some evs →
  Forall (λ e, is_Some (end_ e)) evs →
  evs ≠ [] →
  EventDurationRecorder.finish er (EventDurationRecorder.Build_t func (Some vals))
  = match func with
    | None =>
        Raises TypeError
          (EventDurationRecorder.Build_t func (Some (map (λ _, 0%Q) vals)))
    | Some r =>
        for_each
          (map (λ k, (k, [("duration",
                           CFloat (agg_apply r
                             (group_values k
                                ((λ e, Z.of_nat (global_id (scenario_index e))) <$> evs)
                                (event_days <$> evs))))]))
             (group_keys ((λ e, Z.of_nat (global_id (scenario_index e))) <$> evs)))
          (λ '(index, row),
             do x <~ lift (row_get row "duration") ;;
             EventDurationRecorder.set_value index x)
          (EventDurationRecorder.Build_t func (Some (map (λ _, 0%Q) vals)))
    end.
Proof.
  intros Hevs Hended Hne.
  unfold EventDurationRecorder.finish. unfold bind at 1.
  rewrite (to_dataframe_spec er evs) by done. cbn [lift ret].
  unfold bind at 1. unfold EventDurationRecorder.fill_values at 1.
  unfold bind at 1, gets at 1. cbn [EventDurationRecorder._values]. unfold modify at 1.
  unfold EventDurationRecorder.set_values at 1.
  cbn [EventDurationRecorder.recorder_agg_func].
  remember ((λ e, CInt (Z.of_nat (global_id (scenario_index e)))) <$> evs) as ids eqn:Hids.
  remember ((λ e, CTimestamp (datetime (start e))) <$> evs) as starts eqn:Hstarts.
  remember ((λ e, CTimestamp (end_instant e)) <$> evs) as ends eqn:Hends.
  assert (Hlen : (df_len [("scenario_id", ids); ("start", starts); ("end", ends)] =? 0)%nat
                 = false).
  { cbn [df_len]. rewrite Hids, length_fmap. destruct evs; [done | reflexivity]. }
  rewrite Hlen.
  change (df_get [("scenario_id", ids); ("start", starts); ("end", ends)] "end")
    with (Ok ends).
  change (df_get [("scenario_id", ids); ("start", starts); ("end", ends)] "start")
    with (Ok starts).
  unfold bind at 1. cbn [lift ret]. unfold bind at 1. cbn [lift ret].
  rewrite Hends, Hstarts at 1.
  rewrite (series_sub_timestamps end_instant (λ e, datetime (start e))).
  unfold bind at 1. cbn [lift ret].
  remember ((λ a, CTimedelta (end_instant a - datetime (start a))) <$> evs)
    as deltas eqn:Hdeltas.
  change (df_get (df_set [("scenario_id", ids); ("start", starts); ("end", ends)]
                    "duration" deltas) "duration")
    with (Ok deltas).
  unfold bind at 1. cbn [lift ret]. rewrite Hdeltas at 1.
  rewrite (dt_days_timedeltas (λ a, end_instant a - datetime (start a))).
  unfold bind at 1. cbn [lift ret].
  fold (event_days).
  change ((λ a, CInt (days (end_instant a - datetime (start a)))) <$> evs)
    with ((λ a, CInt (event_days a)) <$> evs).
  remember ((λ a, CInt (event_days a)) <$> evs) as durations eqn:Hdurations.
  change (df_select
            (df_set (df_set [("scenario_id", ids); ("start", starts); ("end", ends)]
                       "duration" deltas) "duration" durations)
            ["scenario_id"; "duration"])
    with (Ok [("scenario_id", ids); ("duration", durations)]).
  unfold bind at 1. cbn [lift ret].
  unfold bind at 1, gets at 1. cbn [EventDurationRecorder.recorder_agg_func].
  unfold bind at 1, groupby_agg.
  change (df_get [("scenario_id", ids); ("duration", durations)] "scenario_id")
    with (Ok ids).
  change (df_get [("scenario_id", ids); ("duration", durations)] "duration")
    with (Ok durations).
  cbn [rbind]. rewrite Hids, Hdurations.
  rewrite (as_ints_ints (λ e, Z.of_nat (global_id (scenario_index e)))).
  cbn [rbind]. destruct func as [r |]; [| reflexivity].
  rewrite (as_ints_ints event_days). reflexivity.
Qed.

Lemma scenario_events_keys i evs :
  Z.of_nat i ∈ (λ e, Z.of_nat (global_id (scenario_index e))) <$> evs
  ↔ scenario_events i evs ≠ [].
Proof.
  unfold scenario_events. rewrite list_elem_of_fmap. split.
  - intros (e & Heq & He) Hnil. apply Nat2Z.inj in Heq.
    assert (Hin : e ∈ filter (λ e, global_id (scenario_index e) = i) evs)
      by (apply list_elem_of_filter; split; [done | done]).
    rewrite Hnil in Hin. inversion Hin.
  - intros Hne.
    destruct (filter (λ e, global_id (scenario_index e) = i) evs) as [| e l] eqn:Hf;
      [done |].
    assert (Hin : e ∈ filter (λ e, global_id (scenario_index e) = i) evs)
      by (rewrite Hf; by left).
    apply list_elem_of_filter in Hin as [Hid Hin]. exists e. split; [by rewrite Hid | done].
Qed.

Lemma duration_finish_spec er evs self vals r :
  EventRecorder.events er = Some evs →
  Forall (λ e, is_Some (end_ e)) evs →
  Forall (λ e, (global_id (scenario_index e) < length vals)%nat) evs →
  EventDurationRecorder.recorder_agg_func self = Some r →
  EventDurationRecorder._values self = Some vals →
  ∃ vals',
    EventDurationRecorder.finish er self
    = Returns tt (EventDurationRecorder.Build_t (Some r) (Some vals')) ∧
    length vals' = length vals ∧
    ∀ i, (i < length vals)%nat →
      vals' !! i = Some (aggregated r (event_days <$> scenario_events i evs)).
Proof.
  intros Hevs Hended Hids Hr Hvals.
  destruct self as [func vs]; simpl in Hr, Hvals; subst func vs.
  destruct (decide (evs = [])) as [-> | Hne].
  - exists (map (λ _, 0%Q) vals). split; [| split; [apply length_map |]].
    + unfold EventDurationRecorder.finish, bind, EventRecorder.to_dataframe.
      rewrite Hevs. reflexivity.
    + intros i Hi. by apply lookup_map_const.
  - rewrite (duration_finish_groups er evs) by done.
    set (keyf := λ e : Event, Z.of_nat (global_id (scenario_index e))).
    destruct (store_groups (Some r)
                (λ k, agg_apply r (group_values k (keyf <$> evs) (event_days <$> evs)))
                (group_keys (keyf <$> evs)) (map (λ _, 0%Q) vals))
      as (vals' & Hrun & Hlen & Hlook).
    { apply Forall_forall. intros k Hk. rewrite elem_of_group_keys in Hk.
      apply list_elem_of_fmap in Hk as (e & -> & He). rewrite length_map.
      pose proof (proj1 (Forall_forall _ _) Hids e He) as Hlt. cbv beta in Hlt.
      unfold keyf. lia. }
    rewrite length_map in Hlen.
    exists vals'. split; [exact Hrun |]. split; [done |].
    intros i Hi. rewrite Hlook by (by rewrite length_map).
    rewrite group_values_filter.
    assert (Hfilter : filter (λ a, keyf a = Z.of_nat i) evs = scenario_events i evs).
    { unfold scenario_events. apply list_filter_iff. intros e. unfold keyf. lia. }
    rewrite Hfilter.
    destruct (decide (Z.of_nat i ∈ group_keys (keyf <$> evs))) as [Hin | Hout].
    + rewrite elem_of_group_keys in Hin. apply (proj1 (scenario_events_keys i evs)) in Hin.
      unfold aggregated. destruct (scenario_events i evs); [done | reflexivity].
    + rewrite lookup_map_const by done.
      rewrite elem_of_group_keys in Hout.
      destruct (scenario_events i evs) as [| e l] eqn:Hsc; [reflexivity |].
      exfalso. apply Hout. apply (proj2 (scenario_events_keys i evs)).
      by rewrite Hsc.
Qed.

Lemma duration_event_days e :
  is_Some (end_ e) → Event_.duration e = Ok (event_days e).
Proof.
  intros [t Ht]. unfold Event_.duration, event_days, end_instant. by rewrite Ht.
Qed.

Lemma durations_event_days l ds :
  Forall (λ e, is_Some (end_ e)) l →
  Forall2 (λ e d, Event_.duration e = Ok d) l ds →
  ds = event_days <$> l.
Proof.
  intros Hended Hds. induction Hds as [| e d l ds Hd _ IH]; [done |].
  apply Forall_cons in Hended as [He Hended].
  rewrite (duration_event_days e He) in Hd. injection Hd as <-.
  rewrite fmap_cons. f_equal. by apply IH.
Qed.

Lemma event_days_truncated e :
  ends_after_start datetime e → event_days e = whole_days_truncated e.
Proof.
  intros (t & Ht & Hle). unfold event_days, whole_days_truncated, days, end_instant.
  rewrite Ht. simpl. symmetry. apply Z.quot_div_nonneg; [lia | done].
Qed.

(** ** Aggregation *)

(** C3. Aggregation.  With a reducer configured, [finish] succeeds and, for
    every scenario [i], with [ds] the durations ([Event.duration]) of its
    events in the order they were recorded, stores the reduction of [ds]
    when there is at least one event and 0.0 when there is none.  For
    events that end no earlier than they start, these durations are the
    truncated whole days between the end and the start instants. *)
Theorem finish_aggregates_durations er evs self vals r :
  EventRecorder.events er = Some evs →
  Forall (λ e, is_Some (end_ e)) evs →
  Forall (λ e, (global_id (scenario_index e) < length vals)%nat) evs →
  EventDurationRecorder.recorder_agg_func self = Some r →
  EventDurationRecorder._values self = Some vals →
  ∃ self' vals',
    EventDurationRecorder.finish er self = Returns tt self' ∧
    EventDurationRecorder._values self' = Some vals' ∧
    length vals' = length vals ∧
    ∀ i ds, (i < length vals)%nat →
      Forall2 (λ e d, Event_.duration e = Ok d) (scenario_events i evs) ds →
      (ds ≠ [] → vals' !! i = Some (agg_apply r ds)) ∧
      (ds = [] → vals' !! i = Some 0%Q) ∧
      (Forall (ends_after_start datetime) evs →
       ds = whole_days_truncated <$> scenario_events i evs).
Proof.
  intros Hevs Hended Hids Hr Hvals.
  destruct (duration_finish_spec er evs self vals r Hevs Hended Hids Hr Hvals)
    as (vals' & Hrun & Hlen & Hlook).
  eexists _, vals'. split; [exact Hrun |]. split; [done |]. split; [done |].
  intros i ds Hi Hds.
  assert (Hsub : Forall (λ e, is_Some (end_ e)) (scenario_events i evs)).
  { apply Forall_forall. intros e He. unfold scenario_events in He.
    apply list_elem_of_filter in He as [_ He].
    exact (proj1 (Forall_forall _ _) Hended e He). }
  apply durations_event_days in Hds; [| done]. subst ds.
  rewrite (Hlook i Hi). unfold aggregated.
  split; [| split].
  - destruct (event_days <$> scenario_events i evs); [done | reflexivity].
  - by intros ->.
  - intros Hchron. apply list_fmap_ext. intros j e He.
    apply event_days_truncated.
    apply list_elem_of_lookup_2 in He. unfold scenario_events in He.
    apply list_elem_of_filter in He as [_ He].
    exact (proj1 (Forall_forall _ _) Hchron e He).
Qed.

(** C8, as the code has it.  There is no default reducer: the reducer is the
    keyword [recorder_agg_func] when it is given, else the keyword
    [agg_func], else [None].  When the reducer so configured is the sum,
    [finish] stores for every scenario the sum of the durations of its
    events. *)
Theorem finish_sums_when_sum_is_configured kwargs model junk er evs :
  (kwargs !! "recorder_agg_func" = None → kwargs !! "agg_func" = None →
   EventDurationRecorder.recorder_agg_func (EventDurationRecorder.__init__ kwargs)
   = None) ∧
  (kwargs !! "recorder_agg_func" = Some (Some AggSum) ∨
   (kwargs !! "recorder_agg_func" = None ∧
    kwargs !! "agg_func" = Some (Some AggSum)) →
   EventRecorder.events er = Some evs →
   Forall (λ e, is_Some (end_ e)) evs →
   Forall (λ e, (global_id (scenario_index e) < length (combinations model))%nat) evs →
   ∃ self self' vals',
     EventDurationRecorder.setup model junk (EventDurationRecorder.__init__ kwargs)
     = Returns tt self ∧
     EventDurationRecorder.finish er self = Returns tt self' ∧
     EventDurationRecorder._values self' = Some vals' ∧
     length vals' = length (combinations model) ∧
     ∀ i, (i < length (combinations model))%nat →
       vals' !! i
       = Some (inject_Z (sum_list (event_days <$> scenario_events i evs)))).
Proof.
  split.
  - intros H1 H2. unfold EventDurationRecorder.__init__. cbn.
    by rewrite H1, H2.
  - intros Hsum Hevs Hended Hids.
    assert (Hfunc : EventDurationRecorder.recorder_agg_func
                      (EventDurationRecorder.__init__ kwargs) = Some AggSum).
    { unfold EventDurationRecorder.__init__. cbn.
      destruct Hsum as [-> | [-> ->]]; reflexivity. }
    set (vals := map junk (seq 0 (length (combinations model)))).
    assert (Hlenvals : length vals = length (combinations model)).
    { unfold vals. by rewrite length_map, length_seq. }
    destruct (duration_finish_spec er evs
                (EventDurationRecorder.set_values vals
                   (EventDurationRecorder.__init__ kwargs)) vals AggSum)
      as (vals' & Hrun & Hlen & Hlook); try done.
    { by rewrite Hlenvals. }
    eexists _, _, vals'. split; [reflexivity |]. split; [exact Hrun |].
    split; [done |]. split; [lia |].
    intros i Hi. rewrite Hlook by lia. unfold aggregated.
    destruct (event_days <$> scenario_events i evs); reflexivity.
Qed.

(** C8, counterexample.  With no reducer configured the stored reducer is
    [None], and [finish] over one event of three days raises in the grouping
    step instead of storing the sum 3. *)
Lemma finish_without_reducer_is_not_a_sum :
  EventDurationRecorder.recorder_agg_func (EventDurationRecorder.__init__ ∅) = None ∧
  EventDurationRecorder.finish recorder_done
    (EventDurationRecorder.Build_t
       (EventDurationRecorder.recorder_agg_func (EventDurationRecorder.__init__ ∅))
       (Some [7%Q; 7%Q]))
  = Raises TypeError (EventDurationRecorder.Build_t None (Some [0%Q; 0%Q])).
Proof. split; reflexivity. Qed.

(** ** The statements at concrete inputs *)

Lemma wf_model1 ts : wf_combinations (model1 ts).
Proof. unfold wf_combinations. simpl. reflexivity. Defined.

Lemma wf_model2 ts : wf_combinations (model2 ts).
Proof. unfold wf_combinations. simpl. reflexivity. Defined.


Lemma after_slot_occupied_iff_triggered_witness :
  ∃ self' cur',
    EventRecorder.after (model2 (day 3)) (IndexParameterThreshold [1; 0]) recorder_two
    = Returns tt self' ∧
    EventRecorder._current_events self' = Some cur' ∧
    length cur' = 2%nat ∧
    ∀ i, (i < 2)%nat →
      ∃ slot x, cur' !! i = Some slot ∧ [1; 0] !! i = Some x ∧ (is_Some slot ↔ x ≠ 0).
Proof.
  apply (after_slot_occupied_iff_triggered (model2 (day 3))
           (IndexParameterThreshold [1; 0]) [1; 0] recorder_two []
           [None; Some (opened (day 1) scenario1)]).
  - apply wf_model2.
  - repeat split.
  - reflexivity.
  - simpl. lia.
Defined.


Lemma after_indicator_length_witness :
  ((length [1] < 2)%nat →
   ∃ self', EventRecorder.after (model2 (day 3)) (IndexParameterThreshold [1]) recorder_two
            = Raises IndexError self') ∧
  ((2 ≤ length [1])%nat →
   ∃ self',
     EventRecorder.after (model2 (day 3)) (IndexParameterThreshold [1]) recorder_two
     = Returns tt self' ∧
     EventRecorder.after (model2 (day 3)) (IndexParameterThreshold (take 2 [1]))
       recorder_two
     = Returns tt self').
Proof.
  apply (after_indicator_length (model2 (day 3)) (IndexParameterThreshold [1]) [1]
           recorder_two [] [None; Some (opened (day 1) scenario1)]).
  - apply wf_model2.
  - repeat split.
  - reflexivity.
Defined.


Lemma to_dataframe_rows_witness :
  ∃ scen_id starts ends,
    EventRecorder.to_dataframe recorder_done
    = Ok [("scenario_id", scen_id); ("start", starts); ("end", ends)] ∧
    df_columns [("scenario_id", scen_id); ("start", starts); ("end", ends)]
    = ["scenario_id"; "start"; "end"] ∧
    df_len [("scenario_id", scen_id); ("start", starts); ("end", ends)] = 1%nat ∧
    length scen_id = 1%nat ∧ length starts = 1%nat ∧ length ends = 1%nat ∧
    ([recorded (day 1) (day 4) scenario0] = [] →
     scen_id = [] ∧ starts = [] ∧ ends = []) ∧
    (∀ i evt, [recorded (day 1) (day 4) scenario0] !! i = Some evt →
       scen_id !! i = Some (CInt (Z.of_nat (global_id (scenario_index evt)))) ∧
       starts !! i = Some (CTimestamp (datetime (start evt))) ∧
       ∃ t, end_ evt = Some t ∧ ends !! i = Some (CTimestamp (datetime t))).
Proof.
  apply (to_dataframe_rows recorder_done [recorded (day 1) (day 4) scenario0]).
  - reflexivity.
  - repeat constructor. exists (day 4). reflexivity.
Defined.

Lemma finish_aggregates_durations_witness :
  ∃ self' vals',
    EventDurationRecorder.finish recorder_done
      (EventDurationRecorder.Build_t (Some AggMax) (Some [7%Q; 7%Q]))
    = Returns tt self' ∧
    EventDurationRecorder._values self' = Some vals' ∧
    length vals' = 2%nat ∧
    ∀ i ds, (i < 2)%nat →
      Forall2 (λ e d, Event_.duration e = Ok d)
        (scenario_events i [recorded (day 1) (day 4) scenario0]) ds →
      (ds ≠ [] → vals' !! i = Some (agg_apply AggMax ds)) ∧
      (ds = [] → vals' !! i = Some 0%Q) ∧
      (Forall (ends_after_start datetime) [recorded (day 1) (day 4) scenario0] →
       ds = whole_days_truncated
              <$> scenario_events i [recorded (day 1) (day 4) scenario0]).
Proof.
  apply (finish_aggregates_durations recorder_done
           [recorded (day 1) (day 4) scenario0]
           (EventDurationRecorder.Build_t (Some AggMax) (Some [7%Q; 7%Q]))
           [7%Q; 7%Q] AggMax).
  - reflexivity.
  - repeat constructor. exists (day 4). reflexivity.
  - repeat constructor.
  - reflexivity.
  - reflexivity.
Defined.

Lemma finish_sums_when_sum_is_configured_witness :
  ∃ self self' vals',
    EventDurationRecorder.setup (model2 (day 0)) (λ _, 7%Q)
      (EventDurationRecorder.__init__ {[ "agg_func" := Some AggSum ]})
    = Returns tt self ∧
    EventDurationRecorder.finish recorder_done self = Returns tt self' ∧
    EventDurationRecorder._values self' = Some vals' ∧
    length vals' = 2%nat ∧
    ∀ i, (i < 2)%nat →
      vals' !! i
      = Some (inject_Z (sum_list (event_days
                <$> scenario_events i [recorded (day 1) (day 4) scenario0]))).
Proof.
  apply (proj2 (finish_sums_when_sum_is_configured {[ "agg_func" := Some AggSum ]}
                  (model2 (day 0)) (λ _, 7%Q) recorder_done
                  [recorded (day 1) (day 4) scenario0])).
  - right. split; reflexivity.
  - reflexivity.
  - repeat constructor. exists (day 4). reflexivity.
  - repeat constructor.
Defined.

(** * Further properties of the recorders *)

(** ** Use before [reset] *)

(** X1. A recorder that has been constructed but not reset has no lists
    yet: [after] (on a model with at least one scenario whose indicator
    entry exists), [finish] (on a model with at least one scenario) and
    [to_dataframe] all raise a [TypeError], and the recorder is unchanged. *)
Theorem use_before_reset_raises mel self0 model threshold trig si rest :
  EventRecorder.__init__ mel = Ok self0 →
  combinations model = si :: rest →
  EventRecorder.all_triggered threshold = Ok trig →
  (global_id si < length trig)%nat →
  EventRecorder.after model threshold self0 = Raises TypeError self0 ∧
  EventRecorder.finish model self0 = Raises TypeError self0 ∧
  EventRecorder.to_dataframe self0 = Raise TypeError.
Proof.
  intros Hinit Hcombos Htrig Hlt.
  destruct (init_keeps_minimum_at_least_one _ _ Hinit) as (_ & Hevs & Hcur).
  destruct self0 as [m evs cur]; simpl in Hevs, Hcur; subst evs cur.
  destruct (lookup_lt_is_Some_2 trig _ Hlt) as [x Hx].
  split; [| split].
  - unfold EventRecorder.after, bind. rewrite Htrig, Hcombos. simpl.
    unfold bind, EventRecorder.after_scenario, bind, lift, getitem.
    rewrite Hx. reflexivity.
  - unfold EventRecorder.finish. rewrite Hcombos. reflexivity.
  - reflexivity.
Qed.

(** ** When [after] returns *)

Lemma after_returns_inv model threshold self evs cur self' :
  wf_combinations model →
  ready model self evs cur →
  EventRecorder.after model threshold self = Returns tt self' →
  ∃ trig, EventRecorder.all_triggered threshold = Ok trig ∧
          (length (combinations model) ≤ length trig)%nat.
Proof.
  intros Hwf (Hevs & Hcur & Hlen) Hrun.
  destruct self as [mel evs0 cur0]; simpl in *; subst evs0 cur0.
  unfold EventRecorder.after, bind in Hrun.
  destruct (EventRecorder.all_triggered threshold) as [trig | e]; [| discriminate].
  exists trig. split; [done |].
  destruct (decide (length (combinations model) ≤ length trig)%nat) as [| Hshort];
    [done | exfalso].
  simpl in Hrun.
  destruct (after_loop_short (current model) trig mel (combinations model) evs cur)
    as (s' & Hraise).
  - apply Forall_forall. intros si Hsi.
    pose proof (wf_combinations_lt _ _ Hwf Hsi). lia.
  - destruct (wf_combinations_covers model (length trig) Hwf) as (si & Hsi & Hid);
      [lia |].
    apply Exists_exists. exists si. split; [done | lia].
  - rewrite Hraise in Hrun. discriminate.
Qed.

(** X2. On a recorder that has been reset, [after] returns normally exactly
    when the threshold is of one of the three recognised kinds and its array
    has an entry for every scenario. *)
Theorem after_returns_iff model threshold self evs cur :
  wf_combinations model →
  ready model self evs cur →
  (∃ self', EventRecorder.after model threshold self = Returns tt self') ↔
  (∃ trig, EventRecorder.all_triggered threshold = Ok trig ∧
           (length (combinations model) ≤ length trig)%nat).
Proof.
  intros Hwf Hready. split.
  - intros [self' Hrun]. by eapply after_returns_inv.
  - intros (trig & Htrig & Hlen).
    destruct (after_spec _ _ _ _ _ _ Hwf Hready Htrig Hlen) as (cur' & Hrun & _).
    eauto.
Qed.

(** ** The event list only grows *)




(** ** Invariants of whole runs *)

(** X4. Length filter.  After [reset] and any number of calls of [after],
    every event in the list has an end, and its span in time-step indices
    is at least the minimum event length of the recorder. *)
Theorem run_events_span_minimum model steps self0 self evs e :
  run model steps self0 = Returns tt self →
  EventRecorder.events self = Some evs →
  e ∈ evs →
  ∃ t, end_ e = Some t ∧
       EventRecorder.minimum_event_length self0 ≤ index t - index (start e).
Proof.
  intros Hrun Hevs He. unfold run, bind in Hrun.
  destruct (reset_inv (EventRecorder.minimum_event_length self0)
              (spans (EventRecorder.minimum_event_length self0)) (λ _, True)
              model self0 eq_refl) as (s1 & Hreset & Hinv1).
  rewrite Hreset in Hrun.
  destruct (afters_spans _ model steps s1 self Hrun Hinv1) as (_ & Hgood & _).
  exact (proj1 (Forall_forall _ _) (Hgood evs Hevs) e He).
Qed.

(** X5. Along a run whose time-steps, and then the final time-step, come
    in calendar order, every event left in the list by [finish] has a
    duration, and the duration is not negative. *)
Theorem run_durations_nonnegative mel model steps final self0 self self' evs e :
  EventRecorder.__init__ mel = Ok self0 →
  ascending datetime (map fst steps ++ [final]) →
  run model steps self0 = Returns tt self →
  EventRecorder.finish (with_current model final) self = Returns tt self' →
  EventRecorder.events self' = Some evs →
  e ∈ evs →
  ∃ d, Event_.duration e = Ok d ∧ 0 ≤ d.
Proof.
  intros Hinit Hasc Hrun Hfin Hevs He.
  pose proof (run_finish_ends_after_start datetime mel model steps final
                self0 self self' evs Hinit Hasc Hrun Hfin Hevs) as Hall.
  destruct (proj1 (Forall_forall _ _) Hall e He) as (t & Ht & Hle).
  unfold Event_.duration. rewrite Ht. eexists. split; [reflexivity |].
  unfold days. apply Z.div_pos; [lia | done].
Qed.

(** ** Errors of the export and of [Event.duration] *)

Lemma fill_raises evs :
  Exists (λ e, end_ e = None) evs → EventRecorder.fill evs = Raise AttributeError.
Proof.
  induction evs as [| e evs IH]; intros Hex; [inversion Hex |].
  cbn [EventRecorder.fill]. destruct (end_ e) as [t |] eqn:Ht; [| reflexivity].
  apply Exists_cons in Hex as [Hhd | Htl]; [congruence |].
  by rewrite IH.
Qed.

(** X6. [to_dataframe] succeeds exactly when the event list exists and
    every event in it has an end.  Before [reset] it raises a [TypeError];
    with an event whose end is unset it raises an [AttributeError]. *)
Theorem to_dataframe_ok_iff self :
  (EventRecorder.events self = None →
   EventRecorder.to_dataframe self = Raise TypeError) ∧
  (∀ evs, EventRecorder.events self = Some evs →
          Exists (λ e, end_ e = None) evs →
          EventRecorder.to_dataframe self = Raise AttributeError) ∧
  ((∃ df, EventRecorder.to_dataframe self = Ok df) ↔
   (∃ evs, EventRecorder.events self = Some evs ∧
           Forall (λ e, is_Some (end_ e)) evs)).
Proof.
  assert (Hbad : ∀ evs, EventRecorder.events self = Some evs →
                        Exists (λ e, end_ e = None) evs →
                        EventRecorder.to_dataframe self = Raise AttributeError).
  { intros evs Hevs Hex. unfold EventRecorder.to_dataframe. rewrite Hevs.
    destruct evs as [| e evs]; [inversion Hex |].
    cbn [length Nat.eqb]. by rewrite fill_raises. }
  split; [| split; [exact Hbad |]].
  - intros Hnone. unfold EventRecorder.to_dataframe. by rewrite Hnone.
  - split.
    + intros [df Hdf].
      destruct (EventRecorder.events self) as [evs |] eqn:Hevs.
      * exists evs. split; [done |].
        destruct (decide (Forall (λ e, is_Some (end_ e)) evs)) as [| Hnot]; [done |].
        apply not_Forall_Exists in Hnot; [| solve_decision].
        rewrite (Hbad evs eq_refl) in Hdf; [discriminate |].
        eapply Exists_impl; [exact Hnot |]. intros e He. simpl in He.
        destruct (end_ e); [| done]. exfalso. apply He. by eexists.
      * unfold EventRecorder.to_dataframe in Hdf. rewrite Hevs in Hdf. discriminate.
    + intros (evs & Hevs & Hall). eexists. by apply to_dataframe_spec.
Qed.

(** X7. [Event.duration] is the number of whole days from the start to the
    end, rounded down: a difference of [k] days and a remainder of at least
    zero and less than a day gives [k], also when [k] is negative.  On an event whose
    end is unset it raises an [AttributeError]. *)
Theorem duration_rounds_down e :
  (end_ e = None → Event_.duration e = Raise AttributeError) ∧
  (∀ t k r, end_ e = Some t →
     datetime t - datetime (start e) = k * ns_per_day + r →
     0 ≤ r < ns_per_day →
     Event_.duration e = Ok k).
Proof.
  split.
  - intros Hnone. unfold Event_.duration. by rewrite Hnone.
  - intros t k r Ht Hdiff Hr. unfold Event_.duration. rewrite Ht. simpl.
    f_equal. unfold days. rewrite Hdiff. symmetry.
    apply (Z.div_unique_pos _ _ k r); [done | lia].
Qed.

(** ** [EventDurationRecorder]: edge cases of [finish] *)

Lemma map_const_replicate {A B} (x : B) (l : list A) :
  map (λ _, x) l = replicate (length l) x.
Proof. induction l as [| a l IH]; [done |]. simpl. by rewrite IH. Qed.

(** X8. With no recorded event, [finish] sets every value to 0.0 and
    returns, whatever the values were and whether or not a reducer is
    configured. *)
Theorem duration_finish_without_events er self vals :
  EventRecorder.events er = Some [] →
  EventDurationRecorder._values self = Some vals →
  EventDurationRecorder.finish er self
  = Returns tt
      (EventDurationRecorder.Build_t (EventDurationRecorder.recorder_agg_func self)
         (Some (replicate (length vals) 0%Q))).
Proof.
  intros Hevs Hvals. destruct self as [func vs]; simpl in Hvals; subst vs.
  unfold EventDurationRecorder.finish, bind, EventRecorder.to_dataframe.
  rewrite Hevs. simpl. unfold EventDurationRecorder.set_values. simpl.
  by rewrite map_const_replicate.
Qed.

(** X9. [finish] recomputes from scratch: its result does not depend on the
    values held before, and calling it again on its own result changes
    nothing. *)
Theorem duration_finish_idempotent er evs self vals r :
  EventRecorder.events er = Some evs →
  Forall (λ e, is_Some (end_ e)) evs →
  Forall (λ e, (global_id (scenario_index e) < length vals)%nat) evs →
  EventDurationRecorder.recorder_agg_func self = Some r →
  EventDurationRecorder._values self = Some vals →
  ∃ self',
    EventDurationRecorder.finish er self = Returns tt self' ∧
    EventDurationRecorder.finish er self' = Returns tt self' ∧
    ∀ vals2, length vals2 = length vals →
      EventDurationRecorder.finish er (EventDurationRecorder.set_values vals2 self)
      = Returns tt self'.
Proof.
  intros Hevs Hended Hids Hr Hvals.
  destruct (duration_finish_spec er evs self vals r Hevs Hended Hids Hr Hvals)
    as (vals' & Hrun & Hlen & Hlook).
  assert (Hany : ∀ vals2, length vals2 = length vals →
            EventDurationRecorder.finish er
              (EventDurationRecorder.Build_t (Some r) (Some vals2))
            = Returns tt (EventDurationRecorder.Build_t (Some r) (Some vals'))).
  { intros vals2 Hlen2.
    destruct (duration_finish_spec er evs
                (EventDurationRecorder.Build_t (Some r) (Some vals2)) vals2 r)
      as (vals'' & Hrun2 & Hlen'' & Hlook2); try done.
    { by rewrite Hlen2. }
    rewrite Hrun2. do 3 f_equal.
    apply list_eq_same_length with (length vals); [lia | lia |].
    intros i x y Hi Hx Hy.
    rewrite Hlook2 in Hx by lia. rewrite Hlook in Hy by lia. congruence. }
  eexists. split; [exact Hrun |]. split.
  - apply Hany. lia.
  - intros vals2 Hlen2. unfold EventDurationRecorder.set_values. rewrite Hr.
    by apply Hany.
Qed.

(** X10. The keyword [recorder_agg_func] takes precedence over [agg_func],
    which is used only when [recorder_agg_func] is not given: after [setup],
    [finish] stores for every scenario the reduction of its durations under
    the reducer so selected (0.0 for a scenario without events). *)
Theorem recorder_agg_func_takes_precedence kwargs r model junk er evs :
  kwargs !! "recorder_agg_func" = Some (Some r) ∨
  (kwargs !! "recorder_agg_func" = None ∧ kwargs !! "agg_func" = Some (Some r)) →
  EventRecorder.events er = Some evs →
  Forall (λ e, is_Some (end_ e)) evs →
  Forall (λ e, (global_id (scenario_index e) < length (combinations model))%nat) evs →
  ∃ self self' vals',
    EventDurationRecorder.setup model junk (EventDurationRecorder.__init__ kwargs)
    = Returns tt self ∧
    EventDurationRecorder.finish er self = Returns tt self' ∧
    EventDurationRecorder._values self' = Some vals' ∧
    length vals' = length (combinations model) ∧
    ∀ i, (i < length (combinations model))%nat →
      vals' !! i = Some (aggregated r (event_days <$> scenario_events i evs)).
Proof.
  intros Hkw Hevs Hended Hids.
  assert (Hfunc : EventDurationRecorder.recorder_agg_func
                    (EventDurationRecorder.__init__ kwargs) = Some r).
  { unfold EventDurationRecorder.__init__. cbn.
    destruct Hkw as [-> | [-> ->]]; reflexivity. }
  set (vals := map junk (seq 0 (length (combinations model)))).
  assert (Hlenvals : length vals = length (combinations model)).
  { unfold vals. by rewrite length_map, length_seq. }
  destruct (duration_finish_spec er evs
              (EventDurationRecorder.set_values vals
                 (EventDurationRecorder.__init__ kwargs)) vals r)
    as (vals' & Hrun & Hlen & Hlook); try done.
  { by rewrite Hlenvals. }
  eexists _, _, vals'. split; [reflexivity |]. split; [exact Hrun |].
  split; [done |]. split; [lia |].
  intros i Hi. apply Hlook. lia.
Qed.

(** X11. The values do not exist before [setup]: [reset] and [values] then
    raise an [AttributeError].  After [setup] and [reset], [values] returns
    one 0.0 per scenario, whatever [np.empty] had left in the array. *)
Theorem values_after_setup_and_reset kwargs model junk :
  EventDurationRecorder.reset (EventDurationRecorder.__init__ kwargs)
  = Raises AttributeError (EventDurationRecorder.__init__ kwargs) ∧
  EventDurationRecorder.values (EventDurationRecorder.__init__ kwargs)
  = Raises AttributeError (EventDurationRecorder.__init__ kwargs) ∧
  ∃ self,
    (do _ <~ EventDurationRecorder.setup model junk ;;
     do _ <~ EventDurationRecorder.reset ;;
     EventDurationRecorder.values) (EventDurationRecorder.__init__ kwargs)
    = Returns (replicate (length (combinations model)) 0%Q) self.
Proof.
  split; [reflexivity |]. split; [reflexivity |].
  eexists. unfold bind, EventDurationRecorder.setup, EventDurationRecorder.reset,
    EventDurationRecorder.values, EventDurationRecorder.fill_values,
    bind, gets, modify, ret. simpl.
  rewrite map_const_replicate, length_map, length_seq. reflexivity.
Qed.

(** ** Calls of [after] that record nothing *)

Lemma omap_all_none {A B} (f : A → option B) l :
  (∀ a, a ∈ l → f a = None) → omap f l = [].
Proof.
  induction l as [| a l IH]; intros Hall; [done |].
  rewrite omap_cons_option_list, IH, Hall; [done | by left |].
  intros b Hb. apply Hall. by right.
Qed.

(** X12. When the indicator of every scenario is non-zero, [after] records
    nothing: the event list is unchanged, every open event stays in its slot
    as it is, and every empty slot receives a new event that starts at the
    current time-step and has no end. *)
Theorem after_all_triggered_records_nothing model threshold trig self evs cur :
  wf_combinations model →
  ready model self evs cur →
  EventRecorder.all_triggered threshold = Ok trig →
  (length (combinations model) ≤ length trig)%nat →
  (∀ i x, (i < length (combinations model))%nat → trig !! i = Some x → x ≠ 0) →
  ∃ self' cur',
    EventRecorder.after model threshold self = Returns tt self' ∧
    EventRecorder.events self' = Some evs ∧
    EventRecorder._current_events self' = Some cur' ∧
    ∀ si, si ∈ combinations model →
      cur' !! global_id si
      = Some (Some (default (Event_.__init__ (current model) si)
                      (slot_at cur (global_id si)))).
Proof.
  intros Hwf Hready Htrig Hn Hall.
  destruct (after_spec _ _ _ _ _ _ Hwf Hready Htrig Hn) as (cur' & Hrun & Hlen & Hin).
  assert (Htruthy : ∀ si, si ∈ combinations model →
            truthy (triggered_at trig (global_id si)) = true).
  { intros si Hsi. pose proof (wf_combinations_lt _ _ Hwf Hsi) as Hlt.
    destruct (lookup_lt_is_Some_2 trig (global_id si)) as [x Hx]; [lia |].
    unfold triggered_at. rewrite Hx. simpl. unfold truthy.
    destruct (Z.eqb_spec x 0) as [-> | ?]; [| done].
    by destruct (Hall _ _ Hlt Hx). }
  eexists _, cur'. split; [exact Hrun |]. simpl. split; [| split; [done |]].
  - f_equal. rewrite <- (app_nil_r evs) at 2. f_equal.
    unfold closed_in_after. apply omap_all_none. intros si Hsi.
    unfold closed_by_after. rewrite (Htruthy si Hsi).
    by destruct (slot_at cur (global_id si)).
  - intros si Hsi. rewrite (Hin si Hsi). unfold slot_after.
    rewrite (Htruthy si Hsi). by destruct (slot_at cur (global_id si)).
Qed.

(** X13. When no event is open and the indicator of every scenario is zero,
    [after] leaves the recorder exactly as it was. *)
Theorem after_idle_changes_nothing model threshold trig self evs cur :
  wf_combinations model →
  ready model self evs cur →
  EventRecorder.all_triggered threshold = Ok trig →
  (length (combinations model) ≤ length trig)%nat →
  (∀ i, (i < length (combinations model))%nat →
        cur !! i = Some None ∧ trig !! i = Some 0) →
  EventRecorder.after model threshold self = Returns tt self.
Proof.
  intros Hwf Hready Htrig Hn Hidle.
  destruct (after_spec _ _ _ _ _ _ Hwf Hready Htrig Hn) as (cur' & Hrun & Hlen & Hin).
  rewrite Hrun. destruct Hready as (Hevs & Hcur & Hlencur).
  destruct self as [mel evs0 cur0]; simpl in *; subst evs0 cur0.
  assert (Hquiet : ∀ si, si ∈ combinations model →
            slot_at cur (global_id si) = None ∧
            triggered_at trig (global_id si) = 0).
  { intros si Hsi. pose proof (wf_combinations_lt _ _ Hwf Hsi) as Hlt.
    destruct (Hidle _ Hlt) as [Hc Ht].
    unfold slot_at, triggered_at. by rewrite Hc, Ht. }
  do 2 f_equal.
  - f_equal. rewrite <- (app_nil_r evs) at 2. f_equal. unfold closed_in_after.
    apply omap_all_none. intros si Hsi. by destruct (Hquiet si Hsi) as [-> ->].
  - f_equal. apply list_eq_same_length with (length (combinations model));
      [done | done |].
    intros i x y Hi Hx Hy.
    destruct (wf_combinations_covers _ _ Hwf Hi) as (si & Hsi & <-).
    rewrite (Hin si Hsi) in Hx. destruct (Hquiet si Hsi) as [Hs Ht].
    rewrite Hs, Ht in Hx. simpl in Hx.
    destruct (Hidle _ Hi) as [Hc _]. congruence.
Qed.

(** ** A call of [after] that fails half-way *)

Lemma for_each_app_raises {S A} (body : A → M S unit) l1 x l2 s s1 e s2 :
  for_each l1 body s = Returns tt s1 →
  body x s1 = Raises e s2 →
  for_each (l1 ++ x :: l2) body s = Raises e s2.
Proof.
  revert s. induction l1 as [| a l1 IH]; intros s Hl1 Hx.
  - cbn in Hl1. unfold ret in Hl1. injection Hl1 as ->.
    cbn [app for_each]. unfold bind. by rewrite Hx.
  - cbn [app for_each] in *. unfold bind in *.
    destruct (body a s) as [[] s' | e' s']; [| discriminate].
    by apply IH.
Qed.

(** X14. [after] updates the scenarios one at a time and does not roll
    back: when the indicator array has no entry for some scenario, the call
    raises an [IndexError] and leaves the recorder in the state that a call
    over the scenarios before that one alone would have produced. *)
Theorem after_failure_keeps_partial_update model threshold trig self l1 si l2 s1 :
  combinations model = l1 ++ si :: l2 →
  EventRecorder.all_triggered threshold = Ok trig →
  (length trig ≤ global_id si)%nat →
  EventRecorder.after (with_combinations model l1) threshold self = Returns tt s1 →
  EventRecorder.after model threshold self = Raises IndexError s1.
Proof.
  intros Hcombos Htrig Hshort Hl1.
  unfold EventRecorder.after, bind in *. rewrite Htrig in *. simpl in *.
  rewrite Hcombos. eapply for_each_app_raises; [exact Hl1 |].
  unfold EventRecorder.after_scenario, bind, lift, getitem.
  by rewrite lookup_ge_None_2.
Qed.

(** ** Scenarios do not interfere *)

Lemma slot_at_Some (cur : list (option Event)) i ev :
  slot_at cur i = Some ev ↔ cur !! i = Some (Some ev).
Proof.
  unfold slot_at. destruct (cur !! i) as [[ev' |] |]; simpl; split; congruence.
Qed.

Lemma scenario_events_app i evs1 evs2 :
  scenario_events i (evs1 ++ evs2) = scenario_events i evs1 ++ scenario_events i evs2.
Proof. unfold scenario_events. apply filter_app. Qed.

Lemma scenario_events_option_list i (o : option Event) :
  (∀ e, o = Some e → global_id (scenario_index e) = i) →
  scenario_events i (option_list o) = option_list o.
Proof.
  intros Hown. destruct o as [e |]; [| done]. simpl.
  unfold scenario_events. rewrite filter_cons_True; [done |]. by apply Hown.
Qed.

Lemma scenario_events_option_list_other i j (o : option Event) :
  (∀ e, o = Some e → global_id (scenario_index e) = j) → j ≠ i →
  scenario_events i (option_list o) = [].
Proof.
  intros Hown Hne. destruct o as [e |]; [| done]. simpl.
  unfold scenario_events. rewrite filter_cons_False; [done |].
  rewrite (Hown e eq_refl). done.
Qed.

Lemma scenario_events_omap_fresh (f : ScenarioIndex → option Event) l i :
  (∀ sj e, f sj = Some e → global_id (scenario_index e) = global_id sj) →
  i ∉ global_id <$> l →
  scenario_events i (omap f l) = [].
Proof.
  intros Hown. induction l as [| a l IH]; intros Hfresh; [done |].
  rewrite fmap_cons in Hfresh. apply not_elem_of_cons in Hfresh as [Hne Hfresh].
  rewrite omap_cons_option_list, scenario_events_app, IH by done.
  rewrite (scenario_events_option_list_other i (global_id a)); [done | | done].
  intros e He. by eapply Hown.
Qed.

Lemma scenario_events_omap (f : ScenarioIndex → option Event) l si :
  (∀ sj e, f sj = Some e → global_id (scenario_index e) = global_id sj) →
  NoDup (global_id <$> l) →
  si ∈ l →
  scenario_events (global_id si) (omap f l) = option_list (f si).
Proof.
  intros Hown. induction l as [| a l IH]; intros Hnd Hin; [inversion Hin |].
  rewrite fmap_cons in Hnd. apply NoDup_cons in Hnd as [Hfresh Hnd].
  rewrite omap_cons_option_list, scenario_events_app.
  apply elem_of_cons in Hin as [-> | Hin].
  - rewrite scenario_events_omap_fresh by done. rewrite app_nil_r.
    apply scenario_events_option_list. intros e He. by eapply Hown.
  - rewrite IH by done.
    rewrite (scenario_events_option_list_other _ (global_id a)); [done | |].
    + intros e He. by eapply Hown.
    + intros Heq. apply Hfresh. rewrite Heq. by apply list_elem_of_fmap_2.
Qed.

Lemma closed_by_after_owned mel ts cur x sj e :
  slots_owned cur →
  closed_by_after mel ts (slot_at cur (global_id sj)) x = Some e →
  global_id (scenario_index e) = global_id sj ∧ is_Some (end_ e).
Proof.
  intros Hown. unfold closed_by_after.
  destruct (slot_at cur (global_id sj)) as [ev |] eqn:Hslot; [| discriminate].
  destruct (truthy x); [discriminate |].
  destruct (mel <=? _); [| discriminate].
  intros [= <-]. simpl. split; [| by eexists].
  apply Hown. by apply slot_at_Some.
Qed.

Lemma indicator_triggered_at threshold trig i :
  EventRecorder.all_triggered threshold = Ok trig →
  indicator threshold i = triggered_at trig i.
Proof. intros Htrig. unfold indicator. by rewrite Htrig. Qed.

Lemma after_tracked model threshold self evs cur self' :
  wf_combinations model →
  ready model self evs cur →
  slots_owned cur →
  events_owned (length (combinations model)) evs →
  EventRecorder.after model threshold self = Returns tt self' →
  ∃ evs' cur',
    ready model self' evs' cur' ∧ slots_owned cur' ∧
    events_owned (length (combinations model)) evs' ∧
    EventRecorder.minimum_event_length self' = EventRecorder.minimum_event_length self ∧
    ∀ si, si ∈ combinations model →
      (slot_at cur' (global_id si), scenario_events (global_id si) evs')
      = track_step (EventRecorder.minimum_event_length self) si
          (slot_at cur (global_id si), scenario_events (global_id si) evs)
          (current model, threshold).
Proof.
  intros Hwf Hready Hslots Hevents Hrun.
  destruct (after_returns_inv _ _ _ _ _ _ Hwf Hready Hrun) as (trig & Htrig & Hn).
  destruct (after_spec _ _ _ _ _ _ Hwf Hready Htrig Hn) as (cur' & Hrun' & Hlen & Hin).
  rewrite Hrun' in Hrun. injection Hrun as <-.
  eexists _, cur'. split; [by repeat split |]. split; [| split; [| split; [done |]]].
  - intros j ev Hj.
    assert (Hlt : (j < length (combinations model))%nat).
    { rewrite <- Hlen. eapply lookup_lt_Some; eauto. }
    destruct (wf_combinations_covers _ _ Hwf Hlt) as (si & Hsi & <-).
    rewrite (Hin si Hsi) in Hj. injection Hj as Hj. unfold slot_after in Hj.
    destruct (slot_at cur (global_id si)) as [ev0 |] eqn:Hslot;
      destruct (truthy _); try discriminate; injection Hj as <-.
    + apply Hslots. by apply slot_at_Some.
    + reflexivity.
  - apply Forall_app. split; [done |]. apply Forall_forall. intros e He.
    unfold closed_in_after in He. apply list_elem_of_omap in He as (sj & Hsj & He).
    destruct (closed_by_after_owned _ _ _ _ _ _ Hslots He) as [Hid Hend].
    split; [| done]. rewrite Hid. by apply wf_combinations_lt.
  - intros si Hsi. unfold track_step. simpl.
    rewrite (indicator_triggered_at _ _ _ Htrig). f_equal.
    + unfold slot_at at 1. by rewrite (Hin si Hsi).
    + rewrite scenario_events_app. f_equal. unfold closed_in_after.
      apply scenario_events_omap; [| by apply wf_combinations_NoDup | done].
      intros sj e He. by destruct (closed_by_after_owned _ _ _ _ _ _ Hslots He).
Qed.

Lemma afters_tracked model steps : ∀ self evs cur self',
  wf_combinations model →
  ready model self evs cur →
  slots_owned cur →
  events_owned (length (combinations model)) evs →
  afters model steps self = Returns tt self' →
  ∃ evs' cur',
    ready model self' evs' cur' ∧ slots_owned cur' ∧
    events_owned (length (combinations model)) evs' ∧
    EventRecorder.minimum_event_length self' = EventRecorder.minimum_event_length self ∧
    ∀ si, si ∈ combinations model →
      (slot_at cur' (global_id si), scenario_events (global_id si) evs')
      = fold_left (track_step (EventRecorder.minimum_event_length self) si) steps
          (slot_at cur (global_id si), scenario_events (global_id si) evs).
Proof.
  induction steps as [| [ts threshold] steps IH];
    intros self evs cur self' Hwf Hready Hslots Hevents Hrun.
  - cbn in Hrun. unfold ret in Hrun. injection Hrun as <-.
    exists evs, cur. repeat (split; [done |]). by intros si Hsi.
  - cbn [afters] in Hrun. unfold bind in Hrun.
    destruct (EventRecorder.after _ _ self) as [[] s1 | e s1] eqn:Hstep; [| discriminate].
    destruct (after_tracked (with_current model ts) threshold self evs cur s1)
      as (evs1 & cur1 & Hready1 & Hslots1 & Hevents1 & Hmel1 & Htrack1); try done.
    destruct (IH s1 evs1 cur1 self' Hwf Hready1 Hslots1 Hevents1 Hrun)
      as (evs' & cur' & Hready' & Hslots' & Hevents' & Hmel' & Htrack').
    exists evs', cur'. split; [done |]. split; [done |]. split; [done |].
    split; [congruence |].
    intros si Hsi. rewrite (Htrack' si Hsi), Hmel1. cbn [fold_left].
    f_equal. exact (Htrack1 si Hsi).
Qed.

Lemma run_tracked model steps self0 self :
  wf_combinations model →
  run model steps self0 = Returns tt self →
  ∃ evs cur,
    ready model self evs cur ∧ slots_owned cur ∧
    events_owned (length (combinations model)) evs ∧
    EventRecorder.minimum_event_length self = EventRecorder.minimum_event_length self0 ∧
    ∀ si, si ∈ combinations model →
      (slot_at cur (global_id si), scenario_events (global_id si) evs)
      = track (EventRecorder.minimum_event_length self0) si steps.
Proof.
  intros Hwf Hrun. unfold run, bind in Hrun. cbn in Hrun.
  set (cur0 := map (λ _, None) (combinations model) : list (option Event)) in Hrun.
  assert (Hnone : ∀ i, slot_at cur0 i = None).
  { intros i. unfold slot_at, cur0.
    destruct (map _ _ !! i) as [slot |] eqn:Hlook; [| done].
    apply list_elem_of_lookup_2, list_elem_of_In, in_map_iff in Hlook
      as (? & <- & _). done. }
  edestruct (afters_tracked model steps) as
    (evs & cur & Hready & Hslots & Hevents & Hmel & Htrack); [exact Hwf | | | | exact Hrun |].
  - repeat split. unfold cur0. apply length_map.
  - intros j ev Hj. apply slot_at_Some in Hj. by rewrite Hnone in Hj.
  - constructor.
  - exists evs, cur. repeat (split; [done |]).
    intros si Hsi. rewrite (Htrack si Hsi). simpl. by rewrite Hnone.
Qed.


Lemma run_finish_tracked model steps final self0 self self' :
  wf_combinations model →
  run model steps self0 = Returns tt self →
  EventRecorder.finish (with_current model final) self = Returns tt self' →
  ∃ evs',
    EventRecorder.events self' = Some evs' ∧
    events_owned (length (combinations model)) evs' ∧
    EventRecorder._current_events self'
    = Some (replicate (length (combinations model)) None) ∧
    ∀ si, si ∈ combinations model →
      scenario_events (global_id si) evs'
      = snd (track (EventRecorder.minimum_event_length self0) si steps)
        ++ option_list ((λ ev, Event_.set_end ev final)
             <$> fst (track (EventRecorder.minimum_event_length self0) si steps)).
Proof.
  intros Hwf Hrun Hfin.
  destruct (run_tracked model steps self0 self Hwf Hrun)
    as (evs & cur & Hready & Hslots & Hevents & _ & Htrack).
  rewrite (finish_spec (with_current model final) self evs cur Hwf Hready) in Hfin.
  injection Hfin as <-. simpl.
  assert (Hown : ∀ sj e,
            (λ ev, Event_.set_end ev final) <$> slot_at cur (global_id sj) = Some e →
            global_id (scenario_index e) = global_id sj ∧ is_Some (end_ e)).
  { intros sj e He.
    destruct (slot_at cur (global_id sj)) as [ev |] eqn:Hslot; [| discriminate].
    injection He as <-. simpl. split; [| by eexists].
    apply Hslots. by apply slot_at_Some. }
  eexists. split; [done |]. split; [| split; [done |]].
  - apply Forall_app. split; [done |]. apply Forall_forall. intros e He.
    unfold closed_in_finish in He. apply list_elem_of_omap in He as (sj & Hsj & He).
    destruct (Hown sj e He) as [Hid Hend]. split; [| done].
    rewrite Hid. by apply wf_combinations_lt.
  - intros si Hsi. rewrite scenario_events_app.
    rewrite <- (Htrack si Hsi). simpl. f_equal.
    unfold closed_in_finish.
    apply (scenario_events_omap
             (λ sj, (λ ev, Event_.set_end ev final) <$> slot_at cur (global_id sj)));
      [| by apply wf_combinations_NoDup | done].
    intros sj e He. by destruct (Hown sj e He).
Qed.

(** X16. A whole run composes with the aggregation.  After [reset], any
    calls of [after] that return and [finish], the export succeeds with one
    row per event, and [EventDurationRecorder.finish] (set up for the same
    model, with a reducer) succeeds: the value of each scenario is the
    reduction of the durations of the events obtained by following that
    scenario alone, the event still open at the end included. *)
Theorem run_then_aggregate_succeeds model steps final self0 self self' d0 d junk r :
  wf_combinations model →
  run model steps self0 = Returns tt self →
  EventRecorder.finish (with_current model final) self = Returns tt self' →
  EventDurationRecorder.recorder_agg_func d0 = Some r →
  EventDurationRecorder.setup model junk d0 = Returns tt d →
  ∃ evs' df d' vals',
    EventRecorder.events self' = Some evs' ∧
    EventRecorder.to_dataframe self' = Ok df ∧
    df_len df = length evs' ∧
    EventDurationRecorder.finish self' d = Returns tt d' ∧
    EventDurationRecorder._values d' = Some vals' ∧
    length vals' = length (combinations model) ∧
    ∀ si, si ∈ combinations model →
      vals' !! global_id si
      = Some (aggregated r
                (event_days
                   <$> (snd (track (EventRecorder.minimum_event_length self0) si steps)
                        ++ option_list ((λ ev, Event_.set_end ev final)
                             <$> fst (track (EventRecorder.minimum_event_length self0)
                                        si steps))))).
Proof.
  intros Hwf Hrun Hfin Hr Hsetup.
  destruct (run_finish_tracked model steps final self0 self self' Hwf Hrun Hfin)
    as (evs' & Hevs' & Hevents & _ & Htrack).
  assert (Hended : Forall (λ e, is_Some (end_ e)) evs').
  { eapply Forall_impl; [exact Hevents |]. by intros e [_ He]. }
  unfold EventDurationRecorder.setup, modify in Hsetup. injection Hsetup as <-.
  set (vals := map junk (seq 0 (length (combinations model)))).
  assert (Hlenvals : length vals = length (combinations model)).
  { unfold vals. by rewrite length_map, length_seq. }
  destruct (duration_finish_spec self' evs'
              (EventDurationRecorder.set_values vals d0) vals r)
    as (vals' & Hfinish & Hlen & Hlook); try done.
  { eapply Forall_impl; [exact Hevents |]. intros e [He _]. by rewrite Hlenvals. }
  eexists evs', _, _, vals'. split; [done |].
  split; [by apply to_dataframe_spec |].
  split; [cbn [df_len]; by rewrite length_fmap |].
  split; [exact Hfinish |]. split; [done |]. split; [lia |].
  intros si Hsi. rewrite Hlook.
  - by rewrite (Htrack si Hsi).
  - rewrite Hlenvals. by apply wf_combinations_lt.
Qed.

(** ** Single scenarios with a steady indicator *)

Lemma truthy_nonzero x : x ≠ 0 → truthy x = true.
Proof. intros Hx. unfold truthy. by destruct (Z.eqb_spec x 0). Qed.

Lemma track_steady mel si steps : ∀ ev recorded_,
  (∀ step, step ∈ steps → indicator (snd step) (global_id si) ≠ 0) →
  fold_left (track_step mel si) steps (Some ev, recorded_) = (Some ev, recorded_).
Proof.
  induction steps as [| step steps IH]; intros ev recorded_ Hall; [done |].
  cbn [fold_left]. unfold track_step at 2. simpl.
  rewrite truthy_nonzero by (apply Hall; by left). simpl.
  rewrite app_nil_r. apply IH. intros s Hs. apply Hall. by right.
Qed.

Lemma track_quiet mel si steps : ∀ recorded_,
  (∀ step, step ∈ steps → indicator (snd step) (global_id si) = 0) →
  fold_left (track_step mel si) steps (None, recorded_) = (None, recorded_).
Proof.
  induction steps as [| step steps IH]; intros recorded_ Hall; [done |].
  cbn [fold_left]. unfold track_step at 2. simpl.
  rewrite (Hall step) by (by left). simpl.
  rewrite app_nil_r. apply IH. intros s Hs. apply Hall. by right.
Qed.

(** X17. A scenario whose indicator is non-zero at every time-step of the
    run gets exactly one event, whatever the minimum event length: it starts
    at the first time-step and [finish] ends it at the final one. *)
Theorem steady_indicator_gives_one_event model ts1 th1 rest final self0 self self' si :
  wf_combinations model →
  si ∈ combinations model →
  (∀ step, step ∈ (ts1, th1) :: rest → indicator (snd step) (global_id si) ≠ 0) →
  run model ((ts1, th1) :: rest) self0 = Returns tt self →
  EventRecorder.finish (with_current model final) self = Returns tt self' →
  ∃ evs',
    EventRecorder.events self' = Some evs' ∧
    scenario_events (global_id si) evs'
    = [Event_.set_end (Event_.__init__ ts1 si) final].
Proof.
  intros Hwf Hsi Hall Hrun Hfin.
  destruct (run_finish_tracked model _ final self0 self self' Hwf Hrun Hfin)
    as (evs' & Hevs' & _ & _ & Htrack).
  exists evs'. split; [done |]. rewrite (Htrack si Hsi).
  unfold track. cbn [fold_left]. unfold track_step at 2 4. simpl.
  rewrite truthy_nonzero by (apply (Hall (ts1, th1)); by left). simpl.
  rewrite track_steady; [done |].
  intros s Hs. apply Hall. by right.
Qed.

(** X18. A scenario whose indicator is zero at every time-step of the run
    gets no event at all, not even from [finish]. *)
Theorem quiet_scenario_gets_no_event model steps final self0 self self' si :
  wf_combinations model →
  si ∈ combinations model →
  (∀ step, step ∈ steps → indicator (snd step) (global_id si) = 0) →
  run model steps self0 = Returns tt self →
  EventRecorder.finish (with_current model final) self = Returns tt self' →
  ∃ evs',
    EventRecorder.events self' = Some evs' ∧
    scenario_events (global_id si) evs' = [].
Proof.
  intros Hwf Hsi Hall Hrun Hfin.
  destruct (run_finish_tracked model steps final self0 self self' Hwf Hrun Hfin)
    as (evs' & Hevs' & _ & _ & Htrack).
  exists evs'. split; [done |]. rewrite (Htrack si Hsi).
  unfold track. by rewrite track_quiet.
Qed.

(** ** The recorded events are the maximal active runs *)

Lemma timestep_at_app steps step k ts :
  timestep_at steps k ts → timestep_at (steps ++ [step]) k ts.
Proof. intros [th Hk]. exists th. by apply lookup_app_l_Some. Qed.

Lemma active_at_app si steps step k :
  active_at si steps k → active_at si (steps ++ [step]) k.
Proof. intros (s & Hk & Hs). exists s. split; [by apply lookup_app_l_Some | done]. Qed.

Lemma idle_at_app si steps step k :
  idle_at si steps k → idle_at si (steps ++ [step]) k.
Proof. intros (s & Hk & Hs). exists s. split; [by apply lookup_app_l_Some | done]. Qed.

Lemma timestep_at_app_inv steps step k ts :
  (k < length steps)%nat → timestep_at (steps ++ [step]) k ts → timestep_at steps k ts.
Proof. intros Hlt [th Hk]. exists th. by rewrite lookup_app_l in Hk. Qed.

Lemma active_at_app_inv si steps step k :
  (k < length steps)%nat → active_at si (steps ++ [step]) k → active_at si steps k.
Proof.
  intros Hlt (s & Hk & Hs). exists s. split; [| done]. by rewrite lookup_app_l in Hk.
Qed.

Lemma idle_at_app_inv si steps step k :
  (k < length steps)%nat → idle_at si (steps ++ [step]) k → idle_at si steps k.
Proof.
  intros Hlt (s & Hk & Hs). exists s. split; [| done]. by rewrite lookup_app_l in Hk.
Qed.

Lemma active_not_idle si steps k : active_at si steps k → idle_at si steps k → False.
Proof. intros (s & Hk & Hs) (s' & Hk' & Hs'). congruence. Qed.

Lemma idle_at_lt si steps k : idle_at si steps k → (k < length steps)%nat.
Proof. intros (s & Hk & _). by eapply lookup_lt_Some. Qed.

Lemma run_from_app si steps step a b :
  run_from si steps a b → run_from si (steps ++ [step]) a b.
Proof.
  intros (Hlt & Hact & Hstart). split; [done |]. split.
  - intros k Hk. apply active_at_app. by apply Hact.
  - destruct Hstart as [-> | Hidle]; [by left | right]. by apply idle_at_app.
Qed.

Lemma run_from_app_inv si steps step a b :
  (b ≤ length steps)%nat →
  run_from si (steps ++ [step]) a b → run_from si steps a b.
Proof.
  intros Hb (Hlt & Hact & Hstart). split; [done |]. split.
  - intros k Hk. eapply active_at_app_inv; [lia |]. by apply Hact.
  - destruct Hstart as [-> | Hidle]; [by left | right].
    eapply idle_at_app_inv; [lia | done].
Qed.

Lemma run_from_start_unique si steps a a' b :
  run_from si steps a b → run_from si steps a' b → a = a'.
Proof.
  intros (Hlt & Hact & Hstart) (Hlt' & Hact' & Hstart').
  destruct (Nat.lt_trichotomy a a') as [Hless | [-> | Hmore]]; [| done |]; exfalso.
  - destruct Hstart' as [-> | Hidle]; [lia |].
    eapply active_not_idle; [apply (Hact (a' - 1)%nat); lia | done].
  - destruct Hstart as [-> | Hidle]; [lia |].
    eapply active_not_idle; [apply (Hact' (a - 1)%nat); lia | done].
Qed.

Lemma track_snoc mel si steps step :
  track mel si (steps ++ [step]) = track_step mel si (track mel si steps) step.
Proof. unfold track. by rewrite fold_left_app. Qed.

Lemma track_runs mel si steps :
  (fst (track mel si steps) = None →
   steps = [] ∨ idle_at si steps (length steps - 1)) ∧
  (∀ ev, fst (track mel si steps) = Some ev →
     ∃ a ts, timestep_at steps a ts ∧ ev = Event_.__init__ ts si ∧
             run_from si steps a (length steps)) ∧
  (∀ e, e ∈ snd (track mel si steps) ↔
     ∃ a b ts t,
       timestep_at steps a ts ∧ timestep_at steps b t ∧
       run_from si steps a b ∧ idle_at si steps b ∧
       mel ≤ index t - index ts ∧
       e = Event_.set_end (Event_.__init__ ts si) t).
Proof.
  induction steps as [| [tsn thn] steps (I1 & I2 & I3)] using rev_ind.
  - split; [by left |]. split; [discriminate |].
    intros e. split; [intros He; inversion He |].
    intros (a & b & ts & t & [th Ha] & _). by rewrite lookup_nil in Ha.
  - rewrite track_snoc. destruct (track mel si steps) as [slot recorded_] eqn:Htrack.
    simpl in I1, I2, I3. unfold track_step. cbn [fst snd].
    rewrite length_app. cbn [length].
    replace (length steps + 1 - 1)%nat with (length steps) by lia.
    assert (Hnew : (steps ++ [(tsn, thn)]) !! length steps = Some (tsn, thn))
      by (by apply list_lookup_middle).
    (* older facts carry over to the longer run *)
    assert (Hold : ∀ e, e ∈ recorded_ →
              ∃ a b ts t,
                timestep_at (steps ++ [(tsn, thn)]) a ts ∧
                timestep_at (steps ++ [(tsn, thn)]) b t ∧
                run_from si (steps ++ [(tsn, thn)]) a b ∧
                idle_at si (steps ++ [(tsn, thn)]) b ∧
                mel ≤ index t - index ts ∧
                e = Event_.set_end (Event_.__init__ ts si) t).
    { intros e He. apply I3 in He as (a & b & ts & t & Ha & Hb & Hrun & Hidle & Hlen & ->).
      exists a, b, ts, t. split; [by apply timestep_at_app |].
      split; [by apply timestep_at_app |]. split; [by apply run_from_app |].
      split; [by apply idle_at_app | done]. }
    assert (Hback : ∀ a b ts t,
              (b < length steps)%nat →
              timestep_at (steps ++ [(tsn, thn)]) a ts →
              timestep_at (steps ++ [(tsn, thn)]) b t →
              run_from si (steps ++ [(tsn, thn)]) a b →
              idle_at si (steps ++ [(tsn, thn)]) b →
              mel ≤ index t - index ts →
              Event_.set_end (Event_.__init__ ts si) t ∈ recorded_).
    { intros a b ts t Hb Ha Htb Hrun Hidle Hlen. apply I3.
      exists a, b, ts, t.
      assert (a < b)%nat by (by destruct Hrun).
      split; [eapply timestep_at_app_inv; [lia | done] |].
      split; [eapply timestep_at_app_inv; [lia | done] |].
      split; [eapply run_from_app_inv; [lia | done] |].
      split; [eapply idle_at_app_inv; [lia | done] | done]. }
    destruct (decide (indicator thn (global_id si) = 0)) as [Hx | Hx].
    + (* the new time-step is idle *)
      rewrite Hx.
      assert (Hidle_n : idle_at si (steps ++ [(tsn, thn)]) (length steps)).
      { exists (tsn, thn). by split. }
      split; [intros _; by right |].
      split; [intros ev; destruct slot; discriminate |].
      intros e. rewrite elem_of_app. split.
      * intros [He | He]; [by apply Hold |].
        destruct slot as [ev |]; [| inversion He]. simpl in He.
        destruct (Z.leb_spec mel (index tsn - index (start ev))) as [Hlen | Hlen];
          [| inversion He].
        apply list_elem_of_singleton in He as ->.
        destruct (I2 ev eq_refl) as (a & ts & Ha & -> & Hrun).
        exists a, (length steps), ts, tsn.
        split; [by apply timestep_at_app |]. split; [by exists thn |].
        split; [by apply run_from_app |]. split; [done |]. by split.
      * intros (a & b & ts & t & Ha & Hb & Hrun & Hidle & Hlen & ->).
        pose proof (idle_at_lt _ _ _ Hidle) as Hblt.
        rewrite length_app in Hblt. cbn [length] in Hblt.
        destruct (decide (b < length steps)%nat) as [Hlt | Hge];
          [left; by eapply Hback |].
        assert (b = length steps) as -> by lia. right.
        assert (t = tsn) as ->.
        { destruct Hb as [th Hb]. rewrite Hnew in Hb. congruence. }
        apply run_from_app_inv in Hrun; [| lia].
        destruct slot as [ev |].
        -- destruct (I2 ev eq_refl) as (a' & ts' & Ha' & -> & Hrun').
           assert (a' = a) as -> by (by eapply run_from_start_unique).
           assert (ts' = ts) as ->.
           { destruct Hrun as (Hlt' & _). apply timestep_at_app_inv in Ha; [| lia].
             destruct Ha as [th1 Ha], Ha' as [th2 Ha']. congruence. }
           simpl. destruct (Z.leb_spec mel (index tsn - index ts)); [| lia].
           by apply list_elem_of_singleton.
        -- exfalso. destruct Hrun as (Hlt' & Hact & _).
           destruct (I1 eq_refl) as [-> | Hlast]; [simpl in Hlt'; lia |].
           eapply active_not_idle; [apply (Hact (length steps - 1)%nat); lia | done].
    + (* the new time-step is active *)
      assert (Hactive_n : active_at si (steps ++ [(tsn, thn)]) (length steps)).
      { exists (tsn, thn). by split. }
      unfold slot_after, closed_by_after. rewrite (truthy_nonzero _ Hx).
      split; [by destruct slot |]. split.
      * intros ev Hev. destruct slot as [ev0 |].
        -- injection Hev as <-.
           destruct (I2 ev0 eq_refl) as (a & ts & Ha & -> & (Hlt & Hact & Hstart)).
           exists a, ts. split; [by apply timestep_at_app |]. split; [done |].
           split; [lia |]. split.
           ++ intros k Hk. destruct (decide (k = length steps)) as [-> | Hne]; [done |].
              apply active_at_app. apply Hact. lia.
           ++ destruct Hstart as [-> | Hidle]; [by left | right].
              by apply idle_at_app.
        -- injection Hev as <-. exists (length steps), tsn.
           split; [by exists thn |]. split; [done |]. split; [lia |]. split.
           ++ intros k Hk. by assert (k = length steps) as -> by lia.
           ++ destruct (I1 eq_refl) as [-> | Hlast]; [by left | right].
              by apply idle_at_app.
      * intros e.
        assert (Hsame : recorded_ ++ option_list
                          match slot with Some _ => None | None => None end
                        = recorded_) by (destruct slot; apply app_nil_r).
        rewrite Hsame. split; [by apply Hold |].
        intros (a & b & ts & t & Ha & Hb & Hrun & Hidle & Hlen & ->).
        pose proof (idle_at_lt _ _ _ Hidle) as Hblt.
        rewrite length_app in Hblt. cbn [length] in Hblt.
        destruct (decide (b < length steps)%nat) as [Hlt | Hge];
          [by eapply Hback |].
        assert (b = length steps) as -> by lia.
        exfalso. by eapply active_not_idle.
Qed.

(** X19. Detection is exact.  During a run, the events recorded for a
    scenario are exactly these: the event from time-step [a] to time-step
    [b], for every maximal stretch [a .. b-1] of time-steps with a non-zero
    indicator that is followed by a time-step [b] with a zero indicator and
    whose span in indices from [a] to [b] is at least the minimum event
    length. *)
Theorem recorded_events_are_active_runs model steps self0 self evs si e :
  wf_combinations model →
  si ∈ combinations model →
  run model steps self0 = Returns tt self →
  EventRecorder.events self = Some evs →
  e ∈ scenario_events (global_id si) evs ↔
  ∃ a b ts t,
    timestep_at steps a ts ∧ timestep_at steps b t ∧
    run_from si steps a b ∧ idle_at si steps b ∧
    EventRecorder.minimum_event_length self0 ≤ index t - index ts ∧
    e = Event_.set_end (Event_.__init__ ts si) t.
Proof.
  intros Hwf Hsi Hrun Hevs.
  destruct (run_tracked model steps self0 self Hwf Hrun)
    as (evs' & cur & (Hevs' & _ & _) & _ & _ & _ & Htrack).
  assert (evs' = evs) as -> by congruence.
  pose proof (f_equal snd (Htrack si Hsi)) as Hsnd. simpl in Hsnd. rewrite Hsnd.
  apply (track_runs (EventRecorder.minimum_event_length self0) si steps).
Qed.

(** X20. During a run, the slot of a scenario is empty exactly when the run
    has no time-step yet or the indicator of the scenario was zero at the
    last one; otherwise it holds the event, without an end, that starts at
    the first time-step of the current stretch of non-zero indicators. *)
Theorem open_event_is_current_run model steps self0 self cur si :
  wf_combinations model →
  si ∈ combinations model →
  run model steps self0 = Returns tt self →
  EventRecorder._current_events self = Some cur →
  (slot_at cur (global_id si) = None ↔
   steps = [] ∨ idle_at si steps (length steps - 1)) ∧
  (∀ ev, slot_at cur (global_id si) = Some ev →
     ∃ a ts, timestep_at steps a ts ∧ ev = Event_.__init__ ts si ∧
             end_ ev = None ∧ run_from si steps a (length steps)).
Proof.
  intros Hwf Hsi Hrun Hcur.
  destruct (run_tracked model steps self0 self Hwf Hrun)
    as (evs & cur' & (_ & Hcur' & _) & _ & _ & _ & Htrack).
  assert (cur' = cur) as -> by congruence.
  pose proof (f_equal fst (Htrack si Hsi)) as Hfst. simpl in Hfst. rewrite Hfst.
  destruct (track_runs (EventRecorder.minimum_event_length self0) si steps)
    as (I1 & I2 & _).
  split; [split; [exact I1 |] |].
  - intros Hidle.
    destruct (fst (track _ si steps)) as [ev |] eqn:Hslot; [exfalso | done].
    destruct (I2 ev eq_refl) as (a & ts & _ & _ & (Hlt & Hact & _)).
    destruct Hidle as [-> | Hidle]; [simpl in Hlt; lia |].
    eapply active_not_idle; [apply (Hact (length steps - 1)%nat); lia | done].
  - intros ev Hev. destruct (I2 ev Hev) as (a & ts & Ha & -> & Hrun').
    exists a, ts. split; [done |]. split; [done |]. split; [reflexivity | done].
Qed.

(** ** The further properties at concrete inputs *)

Lemma use_before_reset_raises_witness :
  EventRecorder.after (model1 (day 0)) (IndexParameterThreshold [1]) recorder_fresh
  = Raises TypeError recorder_fresh ∧
  EventRecorder.finish (model1 (day 0)) recorder_fresh = Raises TypeError recorder_fresh ∧
  EventRecorder.to_dataframe recorder_fresh = Raise TypeError.
Proof.
  apply (use_before_reset_raises (Some 2) recorder_fresh (model1 (day 0))
           (IndexParameterThreshold [1]) [1] scenario0 []).
  - reflexivity.
  - reflexivity.
  - reflexivity.
  - simpl. lia.
Defined.

Lemma after_returns_iff_witness :
  (∃ self', EventRecorder.after (model1 (day 4)) (IndexParameterThreshold [0])
              recorder_open = Returns tt self') ↔
  (∃ trig, EventRecorder.all_triggered (IndexParameterThreshold [0]) = Ok trig ∧
           (1 ≤ length trig)%nat).
Proof.
  apply (after_returns_iff (model1 (day 4)) (IndexParameterThreshold [0])
           recorder_open [] [Some (opened (day 1) scenario0)]).
  - apply wf_model1.
  - repeat split.
Defined.


Lemma run_events_span_minimum_witness :
  ∃ t, end_ (recorded (day 1) (day 4) scenario0) = Some t ∧
       2 ≤ index t - index (start (recorded (day 1) (day 4) scenario0)).
Proof.
  apply (run_events_span_minimum (model1 (day 0)) steps_one_event recorder_fresh
           (EventRecorder.Build_t 2 (Some [recorded (day 1) (day 4) scenario0])
              (Some [None]))
           [recorded (day 1) (day 4) scenario0]).
  - reflexivity.
  - reflexivity.
  - left.
Defined.

Lemma run_durations_nonnegative_witness :
  ∃ d, Event_.duration (recorded (day 0) (day 2) scenario0) = Ok d ∧ 0 ≤ d.
Proof.
  apply (run_durations_nonnegative (Some 2) (model1 (day 0)) steps_steady (day 2)
           recorder_fresh
           (EventRecorder.Build_t 2 (Some []) (Some [Some (opened (day 0) scenario0)]))
           (EventRecorder.Build_t 2 (Some [recorded (day 0) (day 2) scenario0])
              (Some [None]))
           [recorded (day 0) (day 2) scenario0]).
  - reflexivity.
  - simpl. unfold ns_per_day. lia.
  - reflexivity.
  - reflexivity.
  - reflexivity.
  - left.
Defined.

Lemma to_dataframe_ok_iff_witness :
  (EventRecorder.events recorder_done = None →
   EventRecorder.to_dataframe recorder_done = Raise TypeError) ∧
  (∀ evs, EventRecorder.events recorder_done = Some evs →
          Exists (λ e, end_ e = None) evs →
          EventRecorder.to_dataframe recorder_done = Raise AttributeError) ∧
  ((∃ df, EventRecorder.to_dataframe recorder_done = Ok df) ↔
   (∃ evs, EventRecorder.events recorder_done = Some evs ∧
           Forall (λ e, is_Some (end_ e)) evs)).
Proof. exact (to_dataframe_ok_iff recorder_done). Defined.

Lemma duration_rounds_down_witness :
  Event_.duration (recorded (day 1) noon0 scenario0) = Ok (-1).
Proof.
  apply (proj2 (duration_rounds_down (recorded (day 1) noon0 scenario0))
           noon0 (-1) 43200000000000).
  - reflexivity.
  - reflexivity.
  - unfold ns_per_day. lia.
Defined.

Lemma duration_finish_without_events_witness :
  EventDurationRecorder.finish
    (EventRecorder.Build_t 1 (Some []) (Some [None; None]))
    (EventDurationRecorder.Build_t None (Some [7%Q; 7%Q]))
  = Returns tt (EventDurationRecorder.Build_t None (Some (replicate 2 0%Q))).
Proof.
  apply (duration_finish_without_events
           (EventRecorder.Build_t 1 (Some []) (Some [None; None]))
           (EventDurationRecorder.Build_t None (Some [7%Q; 7%Q])) [7%Q; 7%Q]).
  - reflexivity.
  - reflexivity.
Defined.

Lemma duration_finish_idempotent_witness :
  ∃ self',
    EventDurationRecorder.finish recorder_done
      (EventDurationRecorder.Build_t (Some AggMax) (Some [7%Q; 7%Q]))
    = Returns tt self' ∧
    EventDurationRecorder.finish recorder_done self' = Returns tt self' ∧
    ∀ vals2, length vals2 = 2%nat →
      EventDurationRecorder.finish recorder_done
        (EventDurationRecorder.set_values vals2
           (EventDurationRecorder.Build_t (Some AggMax) (Some [7%Q; 7%Q])))
      = Returns tt self'.
Proof.
  apply (duration_finish_idempotent recorder_done
           [recorded (day 1) (day 4) scenario0]
           (EventDurationRecorder.Build_t (Some AggMax) (Some [7%Q; 7%Q]))
           [7%Q; 7%Q] AggMax).
  - reflexivity.
  - repeat constructor. exists (day 4). reflexivity.
  - repeat constructor.
  - reflexivity.
  - reflexivity.
Defined.

Lemma recorder_agg_func_takes_precedence_witness :
  ∃ self self' vals',
    EventDurationRecorder.setup (model2 (day 0)) (λ _, 7%Q)
      (EventDurationRecorder.__init__
         {[ "recorder_agg_func" := Some AggMax; "agg_func" := Some AggSum ]})
    = Returns tt self ∧
    EventDurationRecorder.finish recorder_done self = Returns tt self' ∧
    EventDurationRecorder._values self' = Some vals' ∧
    length vals' = 2%nat ∧
    ∀ i, (i < 2)%nat →
      vals' !! i
      = Some (aggregated AggMax
                (event_days <$> scenario_events i [recorded (day 1) (day 4) scenario0])).
Proof.
  apply (recorder_agg_func_takes_precedence
           {[ "recorder_agg_func" := Some AggMax; "agg_func" := Some AggSum ]}
           AggMax (model2 (day 0)) (λ _, 7%Q) recorder_done
           [recorded (day 1) (day 4) scenario0]).
  - left. reflexivity.
  - reflexivity.
  - repeat constructor. exists (day 4). reflexivity.
  - repeat constructor.
Defined.

Lemma after_all_triggered_records_nothing_witness :
  ∃ self' cur',
    EventRecorder.after (model2 (day 3)) (IndexParameterThreshold [1; 2]) recorder_two
    = Returns tt self' ∧
    EventRecorder.events self' = Some [] ∧
    EventRecorder._current_events self' = Some cur' ∧
    ∀ si, si ∈ [scenario0; scenario1] →
      cur' !! global_id si
      = Some (Some (default (Event_.__init__ (day 3) si)
                      (slot_at [None; Some (opened (day 1) scenario1)] (global_id si)))).
Proof.
  apply (after_all_triggered_records_nothing (model2 (day 3))
           (IndexParameterThreshold [1; 2]) [1; 2] recorder_two []
           [None; Some (opened (day 1) scenario1)]).
  - apply wf_model2.
  - repeat split.
  - reflexivity.
  - simpl. lia.
  - intros i x Hi Hx. destruct i as [| [| i]]; simpl in Hx.
    + injection Hx as <-. lia.
    + injection Hx as <-. lia.
    + discriminate Hx.
Defined.

Lemma after_idle_changes_nothing_witness :
  EventRecorder.after (model2 (day 5)) (IndexParameterThreshold [0; 0]) recorder_done
  = Returns tt recorder_done.
Proof.
  apply (after_idle_changes_nothing (model2 (day 5)) (IndexParameterThreshold [0; 0])
           [0; 0] recorder_done [recorded (day 1) (day 4) scenario0] [None; None]).
  - apply wf_model2.
  - repeat split.
  - reflexivity.
  - simpl. lia.
  - intros i Hi. destruct i as [| [| i]].
    + split; reflexivity.
    + split; reflexivity.
    + simpl in Hi. lia.
Defined.

Lemma after_failure_keeps_partial_update_witness :
  EventRecorder.after (model2 (day 3)) (IndexParameterThreshold [1]) recorder_two
  = Raises IndexError
      (EventRecorder.Build_t 1 (Some [])
         (Some [Some (opened (day 3) scenario0); Some (opened (day 1) scenario1)])).
Proof.
  apply (after_failure_keeps_partial_update (model2 (day 3))
           (IndexParameterThreshold [1]) [1] recorder_two [scenario0] scenario1 []).
  - reflexivity.
  - reflexivity.
  - simpl. lia.
  - reflexivity.
Defined.


Lemma run_then_aggregate_succeeds_witness :
  ∃ evs' df d' vals',
    EventRecorder.events
      (EventRecorder.Build_t 2 (Some [recorded (day 0) (day 2) scenario0]) (Some [None]))
    = Some evs' ∧
    EventRecorder.to_dataframe
      (EventRecorder.Build_t 2 (Some [recorded (day 0) (day 2) scenario0]) (Some [None]))
    = Ok df ∧
    df_len df = length evs' ∧
    EventDurationRecorder.finish
      (EventRecorder.Build_t 2 (Some [recorded (day 0) (day 2) scenario0]) (Some [None]))
      (EventDurationRecorder.Build_t (Some AggSum) (Some [7%Q]))
    = Returns tt d' ∧
    EventDurationRecorder._values d' = Some vals' ∧
    length vals' = 1%nat ∧
    ∀ si, si ∈ [scenario0] →
      vals' !! global_id si
      = Some (aggregated AggSum
                (event_days
                   <$> (snd (track 2 si steps_steady)
                        ++ option_list ((λ ev, Event_.set_end ev (day 2))
                             <$> fst (track 2 si steps_steady))))).
Proof.
  apply (run_then_aggregate_succeeds (model1 (day 0)) steps_steady (day 2)
           recorder_fresh
           (EventRecorder.Build_t 2 (Some []) (Some [Some (opened (day 0) scenario0)]))
           (EventRecorder.Build_t 2 (Some [recorded (day 0) (day 2) scenario0])
              (Some [None]))
           (EventDurationRecorder.Build_t (Some AggSum) None)
           (EventDurationRecorder.Build_t (Some AggSum) (Some [7%Q]))
           (λ _, 7%Q) AggSum).
  - apply wf_model1.
  - reflexivity.
  - reflexivity.
  - reflexivity.
  - reflexivity.
Defined.

Lemma steady_indicator_gives_one_event_witness :
  ∃ evs',
    EventRecorder.events
      (EventRecorder.Build_t 2 (Some [recorded (day 0) (day 2) scenario0]) (Some [None]))
    = Some evs' ∧
    scenario_events (global_id scenario0) evs'
    = [Event_.set_end (Event_.__init__ (day 0) scenario0) (day 2)].
Proof.
  apply (steady_indicator_gives_one_event (model1 (day 0)) (day 0)
           (IndexParameterThreshold [1])
           [(day 1, IndexParameterThreshold [1]); (day 2, IndexParameterThreshold [1])]
           (day 2) recorder_fresh
           (EventRecorder.Build_t 2 (Some []) (Some [Some (opened (day 0) scenario0)]))
           (EventRecorder.Build_t 2 (Some [recorded (day 0) (day 2) scenario0])
              (Some [None]))
           scenario0).
  - apply wf_model1.
  - left.
  - intros step Hin.
    repeat (apply elem_of_cons in Hin as [-> | Hin]; [vm_compute; discriminate |]).
    inversion Hin.
  - reflexivity.
  - reflexivity.
Defined.

Lemma quiet_scenario_gets_no_event_witness :
  ∃ evs',
    EventRecorder.events (EventRecorder.Build_t 2 (Some []) (Some [None])) = Some evs' ∧
    scenario_events (global_id scenario0) evs' = [].
Proof.
  apply (quiet_scenario_gets_no_event (model1 (day 0)) steps_quiet (day 1)
           recorder_fresh
           (EventRecorder.Build_t 2 (Some []) (Some [None]))
           (EventRecorder.Build_t 2 (Some []) (Some [None]))
           scenario0).
  - apply wf_model1.
  - left.
  - intros step Hin. unfold steps_quiet, daily in Hin. simpl in Hin.
    repeat (apply elem_of_cons in Hin as [-> | Hin]; [reflexivity |]).
    inversion Hin.
  - reflexivity.
  - reflexivity.
Defined.

Lemma recorded_events_are_active_runs_witness :
  recorded (day 1) (day 4) scenario0
    ∈ scenario_events (global_id scenario0) [recorded (day 1) (day 4) scenario0] ↔
  ∃ a b ts t,
    timestep_at steps_one_event a ts ∧ timestep_at steps_one_event b t ∧
    run_from scenario0 steps_one_event a b ∧ idle_at scenario0 steps_one_event b ∧
    EventRecorder.minimum_event_length recorder_fresh ≤ index t - index ts ∧
    recorded (day 1) (day 4) scenario0 = Event_.set_end (Event_.__init__ ts scenario0) t.
Proof.
  apply (recorded_events_are_active_runs (model1 (day 0)) steps_one_event
           recorder_fresh
           (EventRecorder.Build_t 2 (Some [recorded (day 1) (day 4) scenario0])
              (Some [None]))
           [recorded (day 1) (day 4) scenario0] scenario0).
  - apply wf_model1.
  - left.
  - reflexivity.
  - reflexivity.
Defined.

Lemma open_event_is_current_run_witness :
  (slot_at [Some (opened (day 0) scenario0)] (global_id scenario0) = None ↔
   steps_steady = [] ∨ idle_at scenario0 steps_steady (length steps_steady - 1)) ∧
  (∀ ev, slot_at [Some (opened (day 0) scenario0)] (global_id scenario0) = Some ev →
     ∃ a ts, timestep_at steps_steady a ts ∧ ev = Event_.__init__ ts scenario0 ∧
             end_ ev = None ∧ run_from scenario0 steps_steady a (length steps_steady)).
Proof.
  apply (open_event_is_current_run (model1 (day 0)) steps_steady recorder_fresh
           (EventRecorder.Build_t 2 (Some []) (Some [Some (opened (day 0) scenario0)]))
           [Some (opened (day 0) scenario0)] scenario0).
  - apply wf_model1.
  - left.
  - reflexivity.
  - reflexivity.
Defined.
